(** * ZMK keymap tools: grid formatter and syntax validator

    A shallow embedding of [scripts/format_keymap.py] and
    [scripts/validate_keymap.py], and the properties of the two scripts.

    Python text ([str]) is a sequence of Unicode code points: a character is
    its code point, a text is a list of them.  The scripts use three regular
    expressions, all built from literals and greedy repetitions of one
    character class; [Regex] embeds that fragment of Python's [re] with its
    backtracking order, [re.findall] and [re.sub]. *)

From Stdlib Require Import List NArith ZArith Bool Arith Lia.
From Stdlib Require String Ascii.
Import ListNotations String.StringSyntax.
Delimit Scope string_scope with string.
Local Open Scope N_scope.

(** ** Text *)

Definition char := N.
Definition text := list char.

(** The code points of an ASCII literal. *)
Definition str (s : String.string) : text :=
  map Ascii.N_of_ascii (String.list_ascii_of_string s).
Arguments str s%_string.

Definition nl : char := 10.
Definition space : char := 32.
Definition dquote : char := 34.
Definition amp : char := 38.
Definition lt_sign : char := 60.
Definition gt_sign : char := 62.
Definition bslash : char := 92.
Definition lbrace : char := 123.

Fixpoint text_eqb (a b : text) : bool :=
  match a, b with
  | [], [] => true
  | x :: a', y :: b' => (x =? y) && text_eqb a' b'
  | _, _ => false
  end.

(** [startswith p s]: [s.startswith(p)]. *)
Fixpoint startswith (p s : text) : bool :=
  match p, s with
  | [], _ => true
  | x :: p', y :: s' => (x =? y) && startswith p' s'
  | _ :: _, [] => false
  end.

(** [contains p s]: Python's [p in s] on [str]. *)
Fixpoint contains (p s : text) : bool :=
  startswith p s ||
  match s with
  | [] => false
  | _ :: s' => contains p s'
  end.

(** [needle] occurs in [content]. *)
Definition occurs (needle content : text) : Prop :=
  exists pre post, content = pre ++ needle ++ post.

(** [sep.join(parts)]. *)
Fixpoint join (sep : text) (parts : list text) : text :=
  match parts with
  | [] => []
  | [p] => p
  | p :: rest => p ++ sep ++ join sep rest
  end.

(** [s[i:j]] on a list, for [0 <= i]: the slice is clipped to the list. *)
Definition slice {A} (l : list A) (i j : nat) : list A :=
  firstn (j - i) (skipn i l).

(** [range(start, stop, step)] for a positive [step]. *)
Definition range (start stop step : nat) : list nat :=
  map (fun k => (start + k * step)%nat)
      (seq 0 ((stop - start + (step - 1)) / step)).

(** [f'{s:w}']: a [str] formatted with a bare width is left-justified and
    filled with spaces; a text of [w] characters or more is left as it is. *)
Definition ljust (w : nat) (s : text) : text :=
  s ++ repeat space (w - length s).

(** ** The fragment of [re] the scripts use *)

Module Regex.

(** One item of a pattern: one character of a class, or a greedy repetition
    of a class ([+]: one or more, [*]: zero or more). *)
Inductive atom :=
| One (p : char -> bool)
| Plus (p : char -> bool)
| Star (p : char -> bool).

Definition lit (c : char) : atom := One (N.eqb c).
Definition lits (s : text) : list atom := map lit s.

(** A match is recorded as the piece of text each atom consumed. *)
Definition pieces := list text.

(** [greedy p k s]: a greedy repetition of class [p] followed by the rest of
    the pattern [k].  The longest run is tried first; on failure of the rest
    the run gives back one character at a time. *)
Fixpoint greedy (p : char -> bool) (k : text -> option (pieces * text))
         (s : text) : option (text * pieces * text) :=
  let stop := match k s with
              | Some (ps, rest) => Some ([], ps, rest)
              | None => None
              end in
  match s with
  | c :: s' =>
      if p c then
        match greedy p k s' with
        | Some (w, ps, rest) => Some (c :: w, ps, rest)
        | None => stop
        end
      else stop
  | [] => stop
  end.

(** [match_atoms r s]: match pattern [r] at the start of [s] (the matching
    done by [re] at one position); the result is the pieces consumed and the
    text left after the match. *)
Fixpoint match_atoms (r : list atom) (s : text) {struct r}
  : option (pieces * text) :=
  match r with
  | [] => Some ([], s)
  | One p :: r' =>
      match s with
      | c :: s' =>
          if p c then
            match match_atoms r' s' with
            | Some (ps, rest) => Some ([c] :: ps, rest)
            | None => None
            end
          else None
      | [] => None
      end
  | Plus p :: r' =>
      match s with
      | c :: s' =>
          if p c then
            match greedy p (match_atoms r') s' with
            | Some (w, ps, rest) => Some ((c :: w) :: ps, rest)
            | None => None
            end
          else None
      | [] => None
      end
  | Star p :: r' =>
      match greedy p (match_atoms r') s with
      | Some (w, ps, rest) => Some (w :: ps, rest)
      | None => None
      end
  end.

(** A pattern with at most one capturing group: the atoms before the group,
    the atoms inside it, the atoms after it. *)
Record regex := Regex {
  re_pre : list atom;
  re_grp : list atom;
  re_post : list atom
}.

Definition atoms (r : regex) : list atom :=
  re_pre r ++ re_grp r ++ re_post r.

(** The match object: [group(0)] and [group(1)]. *)
Record match_obj := Match { group0 : text; group1 : text }.

Definition match_at (r : regex) (s : text) : option (match_obj * text) :=
  match match_atoms (atoms r) s with
  | Some (ps, rest) =>
      Some (Match (concat ps)
                  (concat (firstn (length (re_grp r))
                                  (skipn (length (re_pre r)) ps))),
            rest)
  | None => None
  end.

Definition is_empty (s : text) : bool :=
  match s with [] => true | _ :: _ => false end.

(** The scan shared by [findall] and [sub]: at each position try a match;
    after a non-empty match continue where it ended; otherwise move one
    character ahead.  [on_match] and [on_char] say what a match and a skipped
    character contribute.  The fuel bounds the number of positions visited:
    [S (length s)] is always enough. *)
Fixpoint scan {A} (r : regex) (on_match : match_obj -> list A)
         (on_char : char -> list A) (fuel : nat) (s : text) : list A :=
  match fuel with
  | O => []
  | S n =>
      let step := match s with
                  | [] => []
                  | c :: s' => on_char c ++ scan r on_match on_char n s'
                  end in
      match match_at r s with
      | Some (m, rest) =>
          if is_empty (group0 m) then on_match m ++ step
          else on_match m ++ scan r on_match on_char n rest
      | None => step
      end
  end.

Definition scan_all {A} (r : regex) (on_match : match_obj -> list A)
           (on_char : char -> list A) (s : text) : list A :=
  scan r on_match on_char (S (length s)) s.

(** [re.findall(r, s)] for a pattern without a capturing group: the texts of
    the successive non-overlapping matches. *)
Definition findall (r : regex) (s : text) : list text :=
  scan_all r (fun m => [group0 m]) (fun _ => []) s.

(** [re.sub(r, repl, s)] with a function [repl] of the match object: the
    text between the matches is copied, each match is replaced. *)
Definition sub (r : regex) (repl : match_obj -> text) (s : text) : text :=
  scan_all r repl (fun c => [c]) s.

(** The scan itself: the characters passed over and the matches, in order. *)
Definition segments (r : regex) (s : text) : list (char + match_obj) :=
  scan_all r (fun m => [inr m]) (fun c => [inl c]) s.

(** What a pattern denotes: the texts an atom can consume. *)
Definition atom_lang (a : atom) (w : text) : Prop :=
  match a with
  | One p => exists c, w = [c] /\ p c = true
  | Plus p => w <> [] /\ forallb p w = true
  | Star p => forallb p w = true
  end.

(** A pattern that starts with a character or a [+] repetition never matches
    the empty text; the three patterns of the scripts are of this kind. *)
Definition never_empty (r : regex) : Prop :=
  forall s m rest, match_at r s = Some (m, rest) -> group0 m <> [].

Definition starts_consuming (r : list atom) : Prop :=
  match r with
  | One _ :: _ | Plus _ :: _ => True
  | _ => False
  end.

End Regex.


(** ** [scripts/format_keymap.py] *)

(** The outcome of an operation that can raise: its value, or the message of
    the exception. *)
Inductive io_result (A : Type) :=
| Ok (a : A)
| Raise (e : text).
Arguments Ok {A} a.
Arguments Raise {A} e.

(** How a script ends: it runs to its end, leaves through [sys.exit], or is
    ended by an exception that nothing catches. *)
Inductive outcome :=
| Finished
| SysExit (code : nat)
| Crashed.

Module Formatter.
Import Regex.

(** The class [[a-zA-Z0-9_]]. *)
Definition is_ident (c : char) : bool :=
  ((97 <=? c) && (c <=? 122)) || ((65 <=? c) && (c <=? 90)) ||
  ((48 <=? c) && (c <=? 57)) || (c =? 95).

(** The class [[^>]]. *)
Definition not_gt (c : char) : bool := negb (c =? gt_sign).

(** [r'&[a-zA-Z0-9_]+'] *)
Definition token_re : regex := Regex [lit amp; Plus is_ident] [] [].

(** [r'bindings = <([^>]+)>'] *)
Definition pattern : regex :=
  Regex (lits (str "bindings = <")) [Plus not_gt] [lit gt_sign].

Definition columns : nat := 10.

(** The body of the loop: one row of the grid, starting at token [i]. *)
Definition formatted_row (bindings_list : list text) (i : nat) : text :=
  let row := slice bindings_list i (i + columns) in
  join [space] (map (ljust 12) row).

(** The loop of [format_bindings]: [formatted] after the last iteration. *)
Definition format_rows (bindings_list : list text) : list text :=
  fold_left (fun formatted i => formatted ++ [formatted_row bindings_list i])
            (range 0 (length bindings_list) columns) [].

Definition block_open : text := str "bindings = <" ++ [bslash; nl] ++ str "        ".
Definition row_sep : text := [bslash; nl] ++ str "        ".
Definition block_close : text := [bslash; nl] ++ str "    >".

(** The block written for a list of tokens. *)
Definition render (bindings_list : list text) : text :=
  block_open ++ join row_sep (format_rows bindings_list) ++ block_close.

Definition format_bindings (m : match_obj) : text :=
  let bindings := group1 m in
  let bindings_list := findall token_re bindings in
  render bindings_list.

Definition format_keymap_bindings (content : text) : text :=
  sub pattern format_bindings content.

(** *** Vocabulary of the properties *)

(** A token: [&] followed by one or more identifier characters. *)
Definition is_token (t : text) : Prop :=
  exists w, t = amp :: w /\ w <> [] /\ forallb is_ident w = true.

(** The text does not go on with an identifier character. *)
Definition ends_token (s : text) : Prop :=
  match s with
  | [] => True
  | c :: _ => is_ident c = false
  end.

(** The text every block starts with. *)
Definition block_head : text := str "bindings = <".

(** [body] can stand between the angle brackets: it is not empty and holds
    no [>]. *)
Definition is_body (body : text) : Prop :=
  body <> [] /\ forallb not_gt body = true.

(** The text holds a block somewhere. *)
Definition has_block (s : text) : Prop :=
  exists pre body post,
    s = pre ++ block_head ++ body ++ gt_sign :: post /\ is_body body.

(** The body of a written block: what stands between its angle brackets. *)
Definition render_body (toks : list text) : text :=
  [bslash; nl] ++ str "        " ++ join row_sep (format_rows toks) ++
  [bslash; nl] ++ str "    ".

(** The text ends inside a block that is still open: some [bindings = <] of
    the text has no [>] after it. *)
Fixpoint ends_open (s : text) : bool :=
  (startswith block_head s && forallb not_gt (skipn 12 s)) ||
  match s with
  | [] => false
  | _ :: s' => ends_open s'
  end.

(** A character of the layout of a written block: the space of the padding
    and the backslash and newline of the continuation. *)
Definition is_layout (c : char) : bool :=
  (c =? space) || (c =? bslash) || (c =? nl).

(** *** The file, the external formatter and the console *)

(** What running [clang-format] on a text does: the program is not found
    ([FileNotFoundError]), starting or talking to it raises something else,
    or it exits with a return code and its two output streams. *)
Inductive process :=
| NotFound
| Broken (e : text)
| Exited (returncode : Z) (out err : text).

(** The environment of the script: the external formatter, and the paths
    that cannot be opened for writing, with the message of the exception. *)
Record env := Env {
  clang_format : text -> process;
  write_error : text -> option text
}.

(** The state the script acts on: what opening and reading each path gives,
    and the lines printed so far.  A file is named by its path; a write that
    fails is one whose [open] raises, before the file is touched; every line
    printed is taken by the console. *)
Record world := World {
  read_file : text -> io_result text;
  printed : list text
}.

Definition print (line : text) (w : world) : world :=
  World (read_file w) (printed w ++ [line]).

Definition write_file (path content : text) (w : world) : world :=
  World (fun p => if text_eqb p path then Ok content else read_file w p)
        (printed w).

(** The inner [try]: the text after the external formatter, or the
    exception that leaves it. *)
Definition apply_clang (e : env) (formatted_content : text) (w : world)
  : io_result text * world :=
  match clang_format e formatted_content with
  | Exited returncode out _ =>
      (Ok (if (returncode =? 0)%Z then out else formatted_content), w)
  | NotFound =>
      (Ok formatted_content,
       print (str "clang-format not found, using custom formatting only") w)
  | Broken msg => (Raise msg, w)
  end.

Definition report_error (file_path msg : text) (w : world) : world :=
  print (str "Error formatting " ++ file_path ++ str ": " ++ msg) w.

Definition format_with_clang_and_grid (e : env) (file_path : text) (w : world)
  : world :=
  match read_file w file_path with
  | Raise msg => report_error file_path msg w
  | Ok content =>
      let formatted_content := format_keymap_bindings content in
      match apply_clang e formatted_content w with
      | (Raise msg, w1) => report_error file_path msg w1
      | (Ok formatted_content, w1) =>
          match write_error e file_path with
          | Some msg => report_error file_path msg w1
          | None =>
              print (str "Formatted " ++ file_path)
                    (write_file file_path formatted_content w1)
          end
      end
  end.

(** The external formatter never gives a text back: each time it is not
    found or exits with a status that is not zero. *)
Definition never_replaces (e : env) : Prop :=
  forall t,
    clang_format e t = NotFound \/
    exists returncode out err,
      clang_format e t = Exited returncode out err /\ returncode <> 0%Z.

End Formatter.

(** ** [scripts/validate_keymap.py] *)

Module Validator.
Import Regex.

Section Unicode.
(** [\w] and [\s] of a [str] pattern follow the Unicode database, which is
    not part of the script: outside ASCII, which characters are
    alphanumeric and which are white space is left open. *)
Variables uni_alnum uni_space : char -> bool.

(** [print] encodes the line for standard output and raises when a character
    has no encoding.  Every encoding takes the ASCII characters; which other
    characters the encoding of standard output takes is left open. *)
Variable encodable : char -> bool.

(** [\w] *)
Definition is_word (c : char) : bool :=
  if c <? 128 then Formatter.is_ident c else uni_alnum c.

(** [\s] *)
Definition is_space (c : char) : bool :=
  if c <? 128 then
    ((9 <=? c) && (c <=? 13)) || ((28 <=? c) && (c <=? 31)) || (c =? 32)
  else uni_space c.

(** [r'\w+_layer\s*\{'] *)
Definition layer_re : regex :=
  Regex (Plus is_word :: lits (str "_layer") ++ [Star is_space; lit lbrace])
        [] [].

Definition include_behaviors : text := str "#include <behaviors.dtsi>".
Definition include_keys : text := str "#include <dt-bindings/zmk/keys.h>".
Definition compatible_keymap : text :=
  str "compatible = " ++ [dquote] ++ str "zmk,keymap" ++ [dquote].

Definition msg_behaviors : text :=
  str "Missing required include: #include <behaviors.dtsi>".
Definition msg_keys : text :=
  str "Missing required include: #include <dt-bindings/zmk/keys.h>".
Definition msg_compatible : text :=
  str "Missing keymap node with compatible property".
Definition msg_layers : text := str "No layers found in keymap".

(** The body of the [try] once the file is read; [errors] is threaded
    through the four [if]s. *)
Definition check_content (content : text) : list text :=
  let errors := [] in
  let errors := if negb (contains include_behaviors content)
                then errors ++ [msg_behaviors] else errors in
  let errors := if negb (contains include_keys content)
                then errors ++ [msg_keys] else errors in
  let errors := if negb (contains compatible_keymap content)
                then errors ++ [msg_compatible] else errors in
  let layer_count := length (findall layer_re content) in
  let errors := if (layer_count =? 0)%nat
                then errors ++ [msg_layers] else errors in
  errors.

(** [fs keymap_file] is what opening and reading the file gives. *)
Definition validate_keymap_syntax (fs : text -> io_result text)
           (keymap_file : text) : list text :=
  match fs keymap_file with
  | Ok content => check_content content
  | Raise e => [str "Error reading file: " ++ e]
  end.

(** The line can be written to standard output. *)
Definition can_print (line : text) : bool :=
  forallb (fun c => (c <? 128) || encodable c) line.

(** Successive calls of [print], none of them inside a [try]: the lines that
    reach standard output, and [Crashed] when a call raises; the calls after
    it are not made. *)
Fixpoint print_lines (lines : list text) : list text * outcome :=
  match lines with
  | [] => ([], Finished)
  | line :: rest =>
      if can_print line then
        let (printed, end_) := print_lines rest in (line :: printed, end_)
      else ([], Crashed)
  end.

(** The script run with [sys.argv = argv]: the lines printed, and how it
    ends. *)
Definition main (fs : text -> io_result text) (argv : list text)
  : list text * outcome :=
  if (length argv <? 2)%nat then
    match print_lines [str "Usage: python validate_keymap.py <keymap_file>"]
    with
    | (printed, Finished) => (printed, SysExit 1)
    | crashed => crashed
    end
  else
    let keymap_file := nth 1 argv [] in
    let errors := validate_keymap_syntax fs keymap_file in
    match errors with
    | _ :: _ =>
        print_lines
          (str "Errors found:" :: map (fun error => str "  - " ++ error) errors)
    | [] => print_lines [str "Keymap validation passed!"]
    end.

(** A layer declaration: one or more word characters, [_layer], optional
    white space, an opening brace. *)
Definition is_layer_decl (d : text) : Prop :=
  exists w ws,
    d = w ++ str "_layer" ++ ws ++ [lbrace] /\
    w <> [] /\ forallb is_word w = true /\
    forallb is_space ws = true.

Definition has_layer (content : text) : Prop :=
  exists pre d post, content = pre ++ d ++ post /\ is_layer_decl d.

(** The pieces of a layer declaration, one for each atom of the pattern. *)
Definition layer_pieces (w ws : text) : list text :=
  [w] ++ map (fun c => [c]) (str "_layer") ++ [ws; [lbrace]].

End Unicode.


(** The file of scenario 2: the second include, the keymap node and one
    layer, without the first include. *)
Definition scenario2_content : text :=
  str "#include <dt-bindings/zmk/keys.h>" ++ [nl] ++
  str "compatible = " ++ [dquote] ++ str "zmk,keymap" ++ [dquote] ++ [nl] ++
  str "default_layer {".

(** A Unicode table with nothing outside ASCII. *)
Definition ascii_only (c : char) : bool := false.

End Validator.

(** * Properties *)

(** ** Prefixes and occurrences *)

Module TextFacts.

Lemma startswith_spec p s :
  startswith p s = true <-> exists post, s = p ++ post.
Proof.
  revert s. induction p as [|x p IH]; intros s; simpl.
  - split; [intros _; now exists s|reflexivity].
  - destruct s as [|y s].
    + split; [discriminate|intros (post & H); discriminate].
    + rewrite andb_true_iff, N.eqb_eq, IH. split.
      * intros (-> & post & ->). now exists post.
      * intros (post & H). injection H as -> ->. split; [reflexivity|].
        now exists post.
Qed.

Lemma contains_spec p s : contains p s = true <-> occurs p s.
Proof.
  induction s as [|c s IH].
  - cbn [contains]. rewrite orb_false_r, startswith_spec. split.
    + intros (post & E). now exists [], post.
    + intros (pre & post & E). destruct pre as [|x pre]; [|discriminate].
      now exists post.
  - cbn [contains]. rewrite orb_true_iff, startswith_spec, IH. split.
    + intros [(post & E)|(pre & post & E)].
      * now exists [], post.
      * exists (c :: pre), post. now rewrite E.
    + intros (pre & post & E). destruct pre as [|x pre].
      * left. now exists post.
      * right. injection E as _ E. now exists pre, post.
Qed.

End TextFacts.

(** ** The matcher against the denotation of a pattern *)

Module RegexFacts.
Import Regex.

Lemma greedy_sound p k (Q : pieces -> text -> text -> Prop) :
  (forall s ps rest, k s = Some (ps, rest) -> Q ps rest s) ->
  forall s w ps rest,
    greedy p k s = Some (w, ps, rest) ->
    forallb p w = true /\ exists s', s = w ++ s' /\ Q ps rest s'.
Proof.
  intros Hk s. induction s as [|c s IH]; intros w ps rest H; simpl in H.
  - destruct (k []) as [[ps' rest']|] eqn:E; inversion H; subst.
    split; [reflexivity|]. exists []. split; [reflexivity|]. now apply Hk.
  - assert (Hstop : match k (c :: s) with
                    | Some (ps0, rest0) => Some ([], ps0, rest0)
                    | None => None
                    end = Some (w, ps, rest) ->
                    forallb p w = true /\
                    exists s', c :: s = w ++ s' /\ Q ps rest s').
    { intros H'. destruct (k (c :: s)) as [[ps' rest']|] eqn:E;
        inversion H'; subst.
      split; [reflexivity|]. exists (c :: s). split; [reflexivity|].
      now apply Hk. }
    destruct (p c) eqn:Hc; [|now apply Hstop].
    destruct (greedy p k s) as [[[w' ps'] rest']|] eqn:E; [|now apply Hstop].
    inversion H; subst. destruct (IH _ _ _ eq_refl) as (Hw & s' & -> & HQ).
    split; [simpl; now rewrite Hc|]. exists s'. now split.
Qed.

Lemma match_atoms_sound r :
  forall s ps rest,
    match_atoms r s = Some (ps, rest) ->
    Forall2 atom_lang r ps /\ s = concat ps ++ rest.
Proof.
  induction r as [|a r IH]; intros s ps rest H; simpl in H.
  - inversion H; subst. split; [constructor|reflexivity].
  - destruct a as [p|p|p].
    + destruct s as [|c s]; [discriminate|].
      destruct (p c) eqn:Hc; [|discriminate].
      destruct (match_atoms r s) as [[ps' rest']|] eqn:E; [|discriminate].
      inversion H; subst. destruct (IH _ _ _ E) as [HF ->].
      split; [|reflexivity]. constructor; [|assumption].
      exists c. now split.
    + destruct s as [|c s]; [discriminate|].
      destruct (p c) eqn:Hc; [|discriminate].
      destruct (greedy p (match_atoms r) s) as [[[w ps'] rest']|] eqn:E;
        [|discriminate].
      inversion H; subst.
      destruct (greedy_sound p (match_atoms r)
                  (fun ps rest s => Forall2 atom_lang r ps /\
                                    s = concat ps ++ rest)
                  IH _ _ _ _ E) as (Hw & s' & -> & HF & ->).
      split.
      * constructor; [|assumption]. split; [discriminate|].
        simpl. now rewrite Hc.
      * simpl. now rewrite <- app_assoc.
    + destruct (greedy p (match_atoms r) s) as [[[w ps'] rest']|] eqn:E;
        [|discriminate].
      inversion H; subst.
      destruct (greedy_sound p (match_atoms r)
                  (fun ps rest s => Forall2 atom_lang r ps /\
                                    s = concat ps ++ rest)
                  IH _ _ _ _ E) as (Hw & s' & -> & HF & ->).
      split; [now constructor|]. simpl. now rewrite <- app_assoc.
Qed.

Lemma greedy_complete p k w s :
  forallb p w = true -> k s <> None -> greedy p k (w ++ s) <> None.
Proof.
  intros Hw Hk. induction w as [|c w IH]; simpl in *.
  - destruct (k s) as [[ps rest]|] eqn:E; [|congruence].
    destruct s as [|c s]; simpl; rewrite E; [discriminate|].
    destruct (p c); [|discriminate].
    destruct (greedy p k s) as [[[w' ps'] rest']|]; discriminate.
  - apply andb_prop in Hw. destruct Hw as [Hc Hw]. rewrite Hc.
    specialize (IH Hw).
    destruct (greedy p k (w ++ s)) as [[[w' ps'] rest']|];
      [discriminate|congruence].
Qed.

Lemma match_atoms_complete r ps :
  Forall2 atom_lang r ps ->
  forall rest, match_atoms r (concat ps ++ rest) <> None.
Proof.
  induction 1 as [|a w r ps Ha HF IH]; intros rest; simpl.
  - discriminate.
  - destruct a as [p|p|p]; simpl in Ha.
    + destruct Ha as (c & -> & Hc). simpl. rewrite Hc.
      specialize (IH rest).
      destruct (match_atoms r (concat ps ++ rest)) as [[ps' rest']|];
        [discriminate|congruence].
    + destruct Ha as [Hne Hw]. destruct w as [|c w]; [congruence|].
      simpl in Hw. apply andb_prop in Hw. destruct Hw as [Hc Hw].
      simpl. rewrite Hc. rewrite <- app_assoc.
      pose proof (greedy_complete p (match_atoms r) w _ Hw (IH rest)) as G.
      destruct (greedy p (match_atoms r) (w ++ concat ps ++ rest))
        as [[[w' ps'] rest']|]; [discriminate|congruence].
    + rewrite <- app_assoc.
      pose proof (greedy_complete p (match_atoms r) w _ Ha (IH rest)) as G.
      destruct (greedy p (match_atoms r) (w ++ concat ps ++ rest))
        as [[[w' ps'] rest']|]; [discriminate|congruence].
Qed.

(** A greedy run that can stop at its longest extent does so. *)
Lemma greedy_longest p k w s ps rest :
  forallb p w = true ->
  match s with [] => True | c :: _ => p c = false end ->
  k s = Some (ps, rest) ->
  greedy p k (w ++ s) = Some (w, ps, rest).
Proof.
  intros Hw Hs Hk. induction w as [|c w IH]; simpl in *.
  - destruct s as [|c s]; simpl; rewrite Hk; [reflexivity|]. now rewrite Hs.
  - apply andb_prop in Hw. destruct Hw as [Hc Hw]. rewrite Hc.
    now rewrite (IH Hw).
Qed.

Lemma match_at_sound r s m rest :
  match_at r s = Some (m, rest) ->
  s = group0 m ++ rest /\
  exists ps, Forall2 atom_lang (atoms r) ps /\ group0 m = concat ps /\
    group1 m = concat (firstn (length (re_grp r))
                              (skipn (length (re_pre r)) ps)).
Proof.
  unfold match_at. intros H.
  destruct (match_atoms (atoms r) s) as [[ps rest']|] eqn:E; [|discriminate].
  inversion H; subst. destruct (match_atoms_sound _ _ _ _ E) as [HF ->].
  split; [reflexivity|]. exists ps. now repeat split.
Qed.

(** *** The scan never runs out of fuel *)

Section Scan.
Context {A : Type} (r : regex) (on_match : match_obj -> list A)
        (on_char : char -> list A).

Lemma scan_fuel n :
  forall m s, (length s < n)%nat -> (length s < m)%nat ->
    scan r on_match on_char n s = scan r on_match on_char m s.
Proof.
  induction n as [|n IH]; intros m s Hn Hm; [lia|].
  destruct m as [|m]; [lia|]. simpl.
  assert (Hstep : match s with
                  | [] => []
                  | c :: s' => on_char c ++ scan r on_match on_char n s'
                  end =
                  match s with
                  | [] => []
                  | c :: s' => on_char c ++ scan r on_match on_char m s'
                  end).
  { destruct s as [|c s']; [reflexivity|]. simpl in Hn, Hm.
    f_equal. apply IH; lia. }
  destruct (match_at r s) as [[mo rest]|] eqn:E; [|exact Hstep].
  destruct (is_empty (group0 mo)) eqn:Em; [now rewrite Hstep|].
  f_equal. apply match_at_sound in E. destruct E as [-> _].
  rewrite length_app in Hn, Hm.
  destruct (group0 mo); [discriminate|]. simpl in Hn, Hm.
  apply IH; lia.
Qed.

Let scan_all := Regex.scan_all r on_match on_char.

Lemma scan_all_nil : match_at r [] = None -> scan_all [] = [].
Proof. unfold scan_all, Regex.scan_all. simpl. now intros ->. Qed.

Lemma scan_all_skip c s :
  match_at r (c :: s) = None -> scan_all (c :: s) = on_char c ++ scan_all s.
Proof.
  unfold scan_all, Regex.scan_all. intros H.
  remember (S (length s)) as k eqn:Hk. cbn [scan length]. rewrite H.
  now subst k.
Qed.

Lemma scan_all_match s m rest :
  match_at r s = Some (m, rest) -> group0 m <> [] ->
  scan_all s = on_match m ++ scan_all rest.
Proof.
  unfold scan_all, Regex.scan_all. intros H Hne.
  remember (S (length rest)) as k eqn:Hk. cbn [scan]. rewrite H.
  destruct (group0 m) as [|c g] eqn:Eg; [congruence|]. cbn [is_empty].
  f_equal. apply match_at_sound in H. destruct H as [-> _].
  rewrite Eg. apply scan_fuel; rewrite ?length_app; simpl; lia.
Qed.
End Scan.

Lemma starts_consuming_never_empty r :
  starts_consuming (atoms r) -> never_empty r.
Proof.
  intros Hr s m rest H. apply match_at_sound in H.
  destruct H as (_ & ps & HF & -> & _).
  destruct (atoms r) as [|a r']; [contradiction|].
  inversion HF as [|? w ? ps' Ha HF']; subst.
  destruct a as [p|p|p]; simpl in Ha; try contradiction.
  - destruct Ha as (c & -> & _). discriminate.
  - destruct Ha as [Hne _]. destruct w; [congruence|discriminate].
Qed.

Lemma never_empty_nil r : never_empty r -> match_at r [] = None.
Proof.
  intros Hr. destruct (match_at r []) as [[m rest]|] eqn:E; [|reflexivity].
  exfalso. apply (Hr _ _ _ E). apply match_at_sound in E.
  destruct E as [E _]. destruct (group0 m); [reflexivity|discriminate].
Qed.

(** Induction along the positions a scan visits. *)
Lemma scan_all_ind {A} (r : regex) (on_match : match_obj -> list A)
      (on_char : char -> list A) (P : text -> list A -> Prop) :
  never_empty r ->
  P [] [] ->
  (forall c s out, match_at r (c :: s) = None ->
     P s out -> P (c :: s) (on_char c ++ out)) ->
  (forall s m rest out, match_at r s = Some (m, rest) -> group0 m <> [] ->
     s = group0 m ++ rest ->
     P rest out -> P s (on_match m ++ out)) ->
  forall s, P s (scan_all r on_match on_char s).
Proof.
  intros Hr Hnil Hskip Hmatch s.
  remember (length s) as n eqn:Hn. revert s Hn.
  induction n as [n IH] using lt_wf_ind. intros s Hn.
  destruct (match_at r s) as [[m rest]|] eqn:E.
  - pose proof (Hr _ _ _ E) as Hne.
    rewrite (scan_all_match r on_match on_char _ _ _ E Hne).
    pose proof (match_at_sound _ _ _ _ E) as [Hs _].
    apply (Hmatch s m rest); try assumption.
    apply (IH (length rest)); [|reflexivity].
    subst n. rewrite Hs, length_app.
    destruct (group0 m); [congruence|simpl; lia].
  - destruct s as [|c s].
    + now rewrite scan_all_nil.
    + rewrite (scan_all_skip r on_match on_char _ _ E).
      apply Hskip; [assumption|].
      apply (IH (length s)); [subst n; simpl; lia|reflexivity].
Qed.

(** Every scan is a reading of the segments. *)
Lemma scan_all_segments {A} (r : regex) (on_match : match_obj -> list A)
      (on_char : char -> list A) :
  never_empty r ->
  forall s,
    scan_all r on_match on_char s =
    flat_map (fun sg => match sg with
                        | inl c => on_char c
                        | inr m => on_match m
                        end) (segments r s).
Proof.
  intros Hr s. unfold segments.
  remember (length s) as n eqn:Hn. revert s Hn.
  induction n as [n IH] using lt_wf_ind. intros s Hn.
  destruct (match_at r s) as [[m rest]|] eqn:E.
  - pose proof (Hr _ _ _ E) as Hne.
    rewrite !(scan_all_match r _ _ _ _ _ E Hne). cbn [flat_map app].
    f_equal. apply (IH (length rest)); [|reflexivity].
    pose proof (match_at_sound _ _ _ _ E) as [Hs _].
    subst n. rewrite Hs, length_app.
    destruct (group0 m); [congruence|simpl; lia].
  - destruct s as [|c s].
    + now rewrite !scan_all_nil.
    + rewrite !(scan_all_skip r _ _ _ _ E). cbn [flat_map app].
      f_equal. apply (IH (length s)); [subst n; simpl; lia|reflexivity].
Qed.

(** The segments, read back, are the text that was scanned. *)
Lemma segments_source r :
  never_empty r ->
  forall s,
    flat_map (fun sg => match sg with
                        | inl c => [c]
                        | inr m => group0 m
                        end) (segments r s) = s.
Proof.
  intros Hr s. unfold segments.
  apply (scan_all_ind r (fun m => [inr m]) (fun c => [inl c])
           (fun s out => flat_map (fun sg => match sg with
                                             | inl c => [c]
                                             | inr m => group0 m
                                             end) out = s)).
  - exact Hr.
  - reflexivity.
  - intros c s' out _ H. cbn [flat_map app]. now rewrite H.
  - intros s' m rest out _ _ Hs H. cbn [flat_map app]. now rewrite H.
Qed.

(** Each match among the segments was found by the matcher. *)
Lemma segments_matches r :
  never_empty r ->
  forall s m, In (inr m) (segments r s) ->
    exists s' rest, match_at r s' = Some (m, rest).
Proof.
  intros Hr s. unfold segments.
  apply (scan_all_ind r (fun m => [inr m]) (fun c => [inl c])
           (fun _ out => forall m, In (inr m) out ->
              exists s' rest, match_at r s' = Some (m, rest))).
  - exact Hr.
  - intros m [].
  - intros c s' out _ H m [Hm|Hm]; [discriminate|now apply H].
  - intros s' m rest out Hm _ _ H m' [E|Hin].
    + inversion E; subst. now exists s', rest.
    + now apply H.
Qed.

(** *** Literals at the start of a pattern *)

Lemma match_atoms_lits t r s :
  match_atoms (lits t ++ r) (t ++ s) =
  match match_atoms r s with
  | Some (ps, rest) => Some (map (fun c => [c]) t ++ ps, rest)
  | None => None
  end.
Proof.
  induction t as [|c t IH]; cbn [lits map app match_atoms lit].
  - now destruct (match_atoms r s) as [[ps rest]|].
  - rewrite N.eqb_refl. fold (lits t). rewrite IH.
    now destruct (match_atoms r s) as [[ps rest]|].
Qed.

Lemma Forall2_lits t r ps :
  Forall2 atom_lang (lits t ++ r) ps ->
  exists ps', ps = map (fun c => [c]) t ++ ps' /\ Forall2 atom_lang r ps'.
Proof.
  revert ps. induction t as [|c t IH]; intros ps H.
  - now exists ps.
  - cbn [lits map app] in H. inversion H as [|? w ? ps0 Hw H0]; subst.
    destruct (IH _ H0) as (ps' & -> & H'). exists ps'. split; [|assumption].
    unfold lit, atom_lang in Hw. destruct Hw as (x & -> & Hx).
    apply N.eqb_eq in Hx. now subst x.
Qed.

Lemma concat_singletons (t : text) : concat (map (fun c => [c]) t) = t.
Proof. induction t as [|c t IH]; [reflexivity|]. simpl. now rewrite IH. Qed.

Lemma skipn_app_exact {A} (a b : list A) n :
  length a = n -> skipn n (a ++ b) = b.
Proof.
  intros <-. rewrite skipn_app, skipn_all, Nat.sub_diag. reflexivity.
Qed.

End RegexFacts.

(** ** The grid of the formatter *)

Module GridFacts.
Import Regex Formatter.
Local Open Scope nat_scope.

Lemma fold_left_snoc {A B} (f : A -> B) (l : list A) (acc : list B) :
  fold_left (fun formatted i => formatted ++ [f i]) l acc = acc ++ map f l.
Proof.
  revert acc. induction l as [|x l IH]; intros acc; simpl.
  - now rewrite app_nil_r.
  - rewrite IH. now rewrite <- app_assoc.
Qed.

Lemma range_columns n :
  range 0 n columns = map (fun k => k * columns) (seq 0 ((n + 9) / 10)).
Proof.
  unfold range, columns. rewrite Nat.sub_0_r. reflexivity.
Qed.

Lemma format_rows_map l :
  format_rows l =
  map (fun k => join [space] (map (ljust 12) (firstn 10 (skipn (10 * k) l))))
      (seq 0 ((length l + 9) / 10)).
Proof.
  unfold format_rows. rewrite fold_left_snoc, range_columns, map_map. simpl.
  apply map_ext. intros k. unfold formatted_row, slice, columns.
  replace (k * 10 + 10 - k * 10) with 10 by lia.
  now replace (k * 10) with (10 * k) by lia.
Qed.

Lemma length_format_rows l : length (format_rows l) = (length l + 9) / 10.
Proof. now rewrite format_rows_map, length_map, length_seq. Qed.

Lemma nth_format_rows l k :
  k < length (format_rows l) ->
  nth k (format_rows l) [] =
  join [space] (map (ljust 12) (firstn 10 (skipn (10 * k) l))).
Proof.
  intros Hk. rewrite length_format_rows in Hk. rewrite format_rows_map.
  set (f := fun k => join [space]
                          (map (ljust 12) (firstn 10 (skipn (10 * k) l)))).
  rewrite (nth_indep _ [] (f 0)) by now rewrite length_map, length_seq.
  rewrite (map_nth f). now rewrite seq_nth.
Qed.

Lemma length_ljust w t : length (ljust w t) = Nat.max w (length t).
Proof. unfold ljust. rewrite length_app, repeat_length. lia. Qed.

Lemma firstn_add {A} (a b : nat) (l : list A) :
  firstn (a + b) l = firstn a l ++ firstn b (skipn a l).
Proof.
  revert l. induction a as [|a IH]; intros l; [reflexivity|].
  destruct l as [|x l]; simpl.
  - now rewrite firstn_nil.
  - now rewrite IH.
Qed.

(** The rows put back one after the other are the tokens. *)
Lemma concat_chunks {A} (l : list A) m :
  concat (map (fun k => firstn 10 (skipn (10 * k) l)) (seq 0 m)) =
  firstn (10 * m) l.
Proof.
  induction m as [|m IH]; [reflexivity|].
  rewrite seq_S, map_app, concat_app, IH. cbn [map concat Nat.add].
  rewrite app_nil_r.
  replace (10 * S m) with (10 * m + 10) by lia.
  now rewrite firstn_add.
Qed.

(** The rows of the grid for a list of tokens. *)
Lemma rows_of_tokens (bindings_list : list text) :
  let n := length bindings_list in
  let rows := format_rows bindings_list in
  length rows = (n + 9) / 10 /\
  (n <= 10 * length rows < n + 10) /\
  forall k, k < length rows ->
    let row := firstn 10 (skipn (10 * k) bindings_list) in
    nth k rows [] =
      join [space]
           (map (fun tok => tok ++ repeat space (12 - length tok)) row) /\
    (forall j, j < length row ->
       nth j row [] = nth (10 * k + j) bindings_list []) /\
    0 < length row <= 10 /\
    (S k < length rows -> length row = 10) /\
    (forall tok, In tok row ->
       length (ljust 12 tok) = Nat.max 12 (length tok)).
Proof.
  intros n rows. subst rows.
  assert (Hlen : length (format_rows bindings_list) = (n + 9) / 10)
    by apply length_format_rows.
  split; [exact Hlen|]. split.
  { rewrite Hlen. pose proof (Nat.div_mod_eq (n + 9) 10) as E.
    pose proof (Nat.mod_upper_bound (n + 9) 10). lia. }
  intros k Hk row. subst row. split; [|split; [|split; [|split]]].
  - now apply nth_format_rows.
  - intros j Hj. rewrite length_firstn in Hj.
    rewrite nth_firstn.
    destruct (j <? 10) eqn:Ej; [|apply Nat.ltb_ge in Ej; lia].
    now rewrite nth_skipn.
  - rewrite length_firstn, length_skipn. rewrite Hlen in Hk.
    pose proof (Nat.div_mod_eq (n + 9) 10) as E.
    pose proof (Nat.mod_upper_bound (n + 9) 10). fold n. lia.
  - intros Hk'. rewrite length_firstn, length_skipn. rewrite Hlen in Hk'.
    pose proof (Nat.div_mod_eq (n + 9) 10) as E.
    pose proof (Nat.mod_upper_bound (n + 9) 10). fold n. lia.
  - intros tok _. apply length_ljust.
Qed.

(** Rows joined by the continuation, read line by line. *)
Lemma joined_rows_lines (r : text) (rs : list text) :
  str "        " ++ join row_sep (r :: rs) ++ [bslash; nl] =
  concat (map (fun row => str "        " ++ row ++ [bslash; nl]) (r :: rs)).
Proof.
  revert r. induction rs as [|r' rs IH]; intros r.
  - cbn [join map concat]. now rewrite app_nil_r.
  - change (join row_sep (r :: r' :: rs))
      with (r ++ row_sep ++ join row_sep (r' :: rs)).
    change (concat (map (fun row => str "        " ++ row ++ [bslash; nl])
                        (r :: r' :: rs)))
      with ((str "        " ++ r ++ [bslash; nl]) ++
            concat (map (fun row => str "        " ++ row ++ [bslash; nl])
                        (r' :: rs))).
    rewrite <- IH. unfold row_sep. rewrite <- !app_assoc. reflexivity.
Qed.

Lemma block_lines (rows : list text) :
  rows <> [] ->
  block_open ++ join row_sep rows ++ block_close =
  str "bindings = <" ++ [bslash; nl] ++
  concat (map (fun row => str "        " ++ row ++ [bslash; nl]) rows) ++
  str "    >".
Proof.
  intros Hne. destruct rows as [|r rs]; [congruence|].
  rewrite <- joined_rows_lines. unfold block_open, block_close.
  rewrite <- !app_assoc. reflexivity.
Qed.

(** C2: the block written for a body with [n] tokens is the opening line,
    [ceil(n/10)] rows joined by the continuation (backslash, newline, eight
    spaces), and the closing line, so that each row stands on a line of its
    own; row [k] holds tokens [10*k .. 10*k+9] of the original sequence, so
    a row has at most 10 tokens and only the last row may have fewer; each
    token is left-justified in a field of at least 12 characters (the token
    followed by the spaces missing to 12), and the fields of a row are
    joined by one space. *)
Theorem grid_rows (m : match_obj) :
  let bindings_list := findall token_re (group1 m) in
  let n := length bindings_list in
  exists rows : list text,
    format_bindings m =
      str "bindings = <" ++ [bslash; nl] ++ str "        " ++
      join ([bslash; nl] ++ str "        ") rows ++
      [bslash; nl] ++ str "    >" /\
    (rows <> [] ->
     format_bindings m =
       str "bindings = <" ++ [bslash; nl] ++
       concat (map (fun row => str "        " ++ row ++ [bslash; nl]) rows)
       ++ str "    >") /\
    length rows = (n + 9) / 10 /\
    (n <= 10 * length rows < n + 10) /\
    forall k, k < length rows ->
      let row := firstn 10 (skipn (10 * k) bindings_list) in
      nth k rows [] =
        join [space]
             (map (fun tok => tok ++ repeat space (12 - length tok)) row) /\
      (forall j, j < length row ->
         nth j row [] = nth (10 * k + j) bindings_list []) /\
      0 < length row <= 10 /\
      (S k < length rows -> length row = 10) /\
      (forall tok, In tok row ->
         length (ljust 12 tok) = Nat.max 12 (length tok)).
Proof.
  intros bindings_list n. exists (format_rows bindings_list).
  split; [|split].
  - unfold format_bindings, render, block_open. fold bindings_list.
    fold row_sep. fold block_close. now rewrite <- !app_assoc.
  - intros Hne. unfold format_bindings, render. fold bindings_list.
    now apply block_lines.
  - apply rows_of_tokens.
Qed.

Lemma grid_rows_witness :
  exists rows : list text,
    format_bindings (Match (str "bindings = <&kp A &mo 1>")
                           (str "&kp A &mo 1")) =
      str "bindings = <" ++ [bslash; nl] ++ str "        " ++
      join ([bslash; nl] ++ str "        ") rows ++
      [bslash; nl] ++ str "    >" /\
    length rows = 1 /\
    nth 0 rows [] = str "&kp          &mo         ".
Proof.
  destruct (grid_rows (Match (str "bindings = <&kp A &mo 1>")
                             (str "&kp A &mo 1")))
    as (rows & E & _ & Hlen & _ & H).
  exists rows. split; [exact E|]. split; [exact Hlen|].
  destruct (H 0) as [E0 _]; [rewrite Hlen; apply le_n|].
  rewrite E0. reflexivity.
Defined.

End GridFacts.

(** ** Tokens of a bindings block *)

Module TokenFacts.
Import Regex RegexFacts Formatter GridFacts.

Lemma token_re_never_empty : never_empty token_re.
Proof. apply starts_consuming_never_empty. exact I. Qed.

Lemma token_match_sound s m rest :
  match_at token_re s = Some (m, rest) ->
  is_token (group0 m) /\ s = group0 m ++ rest.
Proof.
  intros H. apply match_at_sound in H.
  destruct H as (Hs & ps & HF & Hg & _). split; [|assumption].
  rewrite Hg. cbn [atoms token_re re_pre re_grp re_post app] in HF.
  inversion HF as [|? w1 ? ps1 H1 HF1]; subst.
  inversion HF1 as [|? w2 ? ps2 H2 HF2]; subst.
  inversion HF2; subst. unfold lit, atom_lang in H1, H2.
  destruct H1 as (c & -> & Hc). destruct H2 as [Hne Hw].
  apply N.eqb_eq in Hc. subst c. exists w2.
  cbn [concat app]. now rewrite app_nil_r.
Qed.

Lemma token_no_match c s : c <> amp -> match_at token_re (c :: s) = None.
Proof.
  intros Hc. unfold match_at.
  cbn [atoms token_re re_pre re_grp re_post app match_atoms lit].
  destruct (N.eqb_spec amp c) as [E|_]; [congruence|reflexivity].
Qed.

Lemma token_match t s :
  is_token t -> ends_token s ->
  match_at token_re (t ++ s) = Some (Match t [], s).
Proof.
  intros (w & -> & Hne & Hw) Hs. destruct w as [|c w]; [congruence|].
  cbn in Hw. apply andb_prop in Hw. destruct Hw as [Hc Hw].
  unfold match_at.
  cbn [atoms token_re re_pre re_grp re_post app match_atoms lit].
  rewrite N.eqb_refl. cbn [app]. rewrite Hc.
  rewrite (greedy_longest is_ident _ w s [] s Hw Hs eq_refl).
  cbn [group0 concat app firstn skipn length]. now rewrite app_nil_r.
Qed.

Lemma findall_nil : findall token_re [] = [].
Proof. reflexivity. Qed.

Lemma findall_skip c s :
  c <> amp -> findall token_re (c :: s) = findall token_re s.
Proof.
  intros Hc. unfold findall.
  now rewrite (scan_all_skip _ _ _ _ _ (token_no_match c s Hc)).
Qed.

Lemma findall_skip_all j s :
  Forall (fun c => c <> amp) j ->
  findall token_re (j ++ s) = findall token_re s.
Proof.
  induction 1 as [|c j Hc Hj IH]; [reflexivity|].
  simpl. now rewrite findall_skip.
Qed.

Lemma findall_token t s :
  is_token t -> ends_token s ->
  findall token_re (t ++ s) = t :: findall token_re s.
Proof.
  intros Ht Hs. unfold findall.
  rewrite (scan_all_match _ _ _ _ _ _ (token_match t s Ht Hs)).
  - reflexivity.
  - cbn. destruct Ht as (w & -> & _). discriminate.
Qed.

(** Every text [findall] returns is a token. *)
Lemma findall_tokens s : Forall is_token (findall token_re s).
Proof.
  unfold findall.
  apply (scan_all_ind token_re (fun m => [group0 m]) (fun _ => [])
           (fun _ out => Forall is_token out)).
  - exact token_re_never_empty.
  - constructor.
  - intros c s' out _ H. exact H.
  - intros s' m rest out Hm _ _ H. simpl. constructor; [|assumption].
    now apply token_match_sound in Hm.
Qed.

Lemma findall_spaces n s :
  findall token_re (repeat space n ++ s) = findall token_re s.
Proof.
  apply findall_skip_all. apply Forall_forall. intros c Hc.
  apply repeat_spec in Hc. subst c. discriminate.
Qed.

Lemma findall_ljust t s :
  is_token t -> ends_token s ->
  findall token_re (ljust 12 t ++ s) = t :: findall token_re s.
Proof.
  intros Ht Hs. unfold ljust. rewrite <- app_assoc.
  rewrite findall_token; [now rewrite findall_spaces|assumption|].
  destruct (12 - length t)%nat; [exact Hs|reflexivity].
Qed.

(** One row of the grid gives back its tokens. *)
Lemma findall_row row s :
  Forall is_token row -> ends_token s ->
  findall token_re (join [space] (map (ljust 12) row) ++ s) =
  row ++ findall token_re s.
Proof.
  induction 1 as [|t row Ht Hrow IH]; intros Hs; [reflexivity|].
  destruct row as [|t' row].
  - cbn [map join]. now rewrite findall_ljust.
  - change (join [space] (map (ljust 12) (t :: t' :: row)))
      with (ljust 12 t ++ [space] ++ join [space] (map (ljust 12) (t' :: row))).
    rewrite <- !app_assoc. rewrite findall_ljust; [|assumption|reflexivity].
    cbn [app]. rewrite findall_skip by discriminate.
    now rewrite IH.
Qed.

Lemma row_sep_no_amp : Forall (fun c => c <> amp) row_sep.
Proof. repeat constructor; discriminate. Qed.

Lemma block_open_no_amp : Forall (fun c => c <> amp) block_open.
Proof. repeat constructor; discriminate. Qed.

(** Rows joined by the continuation give back the tokens of all rows. *)
Lemma findall_rows (rws : list (list text)) s :
  Forall (Forall is_token) rws -> ends_token s ->
  findall token_re
    (join row_sep (map (fun row => join [space] (map (ljust 12) row)) rws) ++ s)
  = concat rws ++ findall token_re s.
Proof.
  induction 1 as [|row rws Hrow Hrws IH]; intros Hs; [reflexivity|].
  destruct rws as [|row' rws].
  - cbn [map join concat]. rewrite app_nil_r. now apply findall_row.
  - set (f := fun row => join [space] (map (ljust 12) row)) in *.
    change (join row_sep (map f (row :: row' :: rws)))
      with (f row ++ row_sep ++ join row_sep (map f (row' :: rws))).
    rewrite <- !app_assoc. unfold f at 1.
    rewrite findall_row; [|assumption|reflexivity].
    rewrite (findall_skip_all row_sep _ row_sep_no_amp).
    rewrite IH by assumption. cbn [concat]. now rewrite app_assoc.
Qed.

Lemma Forall_firstn_skipn {A} (P : A -> Prop) (l : list A) a b :
  Forall P l -> Forall P (firstn a (skipn b l)).
Proof.
  intros H.
  assert (Hs : Forall P (skipn b l)).
  { clear a. revert b. induction H as [|x l Hx Hl IH]; intros [|b]; simpl;
      auto. }
  revert Hs. generalize (skipn b l) as l'. clear. intros l' H. revert a.
  induction H as [|x l Hx Hl IH]; intros [|a]; simpl; auto.
Qed.

(** The grid written for a list of tokens gives back exactly that list. *)
Lemma findall_grid toks s :
  Forall is_token toks -> ends_token s ->
  findall token_re (join row_sep (format_rows toks) ++ s) =
  toks ++ findall token_re s.
Proof.
  intros Ht Hs. rewrite format_rows_map.
  rewrite <- (map_map (fun k => firstn 10 (skipn (10 * k) toks))
                      (fun row => join [space] (map (ljust 12) row))).
  rewrite findall_rows; [|
    apply Forall_forall; intros row Hin; apply in_map_iff in Hin;
    destruct Hin as (k & <- & _); now apply Forall_firstn_skipn
  |assumption].
  rewrite concat_chunks. f_equal. apply firstn_all2.
  pose proof (Nat.div_mod_eq (length toks + 9) 10).
  pose proof (Nat.mod_upper_bound (length toks + 9) 10). lia.
Qed.

Lemma findall_render toks :
  Forall is_token toks -> findall token_re (render toks) = toks.
Proof.
  intros Ht. unfold render.
  rewrite (findall_skip_all block_open _ block_open_no_amp).
  rewrite findall_grid; [|assumption|reflexivity].
  change (findall token_re block_close) with (@nil text).
  apply app_nil_r.
Qed.

(** C1: the [&]-tokens found in a rewritten block are exactly the tokens
    found in the body of the original block: the same tokens, as many times,
    in the same order. *)
Theorem tokens_preserved (m : match_obj) :
  findall token_re (format_bindings m) = findall token_re (group1 m).
Proof.
  unfold format_bindings. apply findall_render. apply findall_tokens.
Qed.

(** C8: when the body of a block holds no token, the rewrite is still
    defined: no row is written, the block is the opening line followed by the
    closing line, and no token can be found in it. *)
Theorem empty_block (m : match_obj) :
  findall token_re (group1 m) = [] ->
  format_rows (findall token_re (group1 m)) = [] /\
  format_bindings m =
    str "bindings = <" ++ [bslash; nl] ++ str "        " ++
    [bslash; nl] ++ str "    >" /\
  findall token_re (format_bindings m) = [].
Proof.
  intros H. split; [|split].
  - now rewrite H.
  - unfold format_bindings. now rewrite H.
  - unfold format_bindings. rewrite findall_render; [assumption|].
    apply findall_tokens.
Qed.

Lemma empty_block_witness :
  findall token_re (str " ") = [] /\
  format_bindings (Match (str "bindings = < >") (str " ")) =
    str "bindings = <" ++ [bslash; nl] ++ str "        " ++
    [bslash; nl] ++ str "    >".
Proof.
  split; [reflexivity|].
  apply (empty_block (Match (str "bindings = < >") (str " "))).
  reflexivity.
Defined.

End TokenFacts.

(** ** Bindings blocks *)

Module BlockFacts.
Import Regex TextFacts RegexFacts Formatter GridFacts TokenFacts.

Lemma pattern_never_empty : never_empty pattern.
Proof. apply starts_consuming_never_empty. exact I. Qed.

(** What a match of the block pattern is. *)
Lemma block_match_sound s m rest :
  match_at pattern s = Some (m, rest) ->
  is_body (group1 m) /\
  group0 m = block_head ++ group1 m ++ [gt_sign] /\
  s = group0 m ++ rest.
Proof.
  intros H. apply match_at_sound in H.
  destruct H as (Hs & ps & HF & Hg0 & Hg1).
  unfold atoms in HF. cbn [pattern re_pre re_grp re_post] in HF, Hg1.
  apply Forall2_lits in HF. destruct HF as (ps' & -> & HF).
  inversion HF as [|? body ? ps1 Hb HF1]; subst.
  inversion HF1 as [|? w ? ps2 Hw HF2]; subst. inversion HF2; subst.
  unfold lit, atom_lang in Hb, Hw. destruct Hw as (c & -> & Hc).
  apply N.eqb_eq in Hc. subst c.
  rewrite skipn_app_exact in Hg1
    by (unfold lits; now rewrite !length_map).
  cbn [length firstn concat] in Hg1. rewrite app_nil_r in Hg1.
  rewrite concat_app, concat_singletons in Hg0. cbn [concat] in Hg0.
  rewrite app_nil_r in Hg0. rewrite Hg1. repeat split; tauto.
Qed.

(** The block pattern matches wherever a block starts, and takes the body up
    to the first [>]. *)
Lemma block_match body rest :
  is_body body ->
  match_at pattern (block_head ++ body ++ gt_sign :: rest) =
  Some (Match (block_head ++ body ++ [gt_sign]) body, rest).
Proof.
  intros [Hne Hb]. destruct body as [|c w]; [congruence|].
  cbn [forallb] in Hb. apply andb_prop in Hb. destruct Hb as [Hc Hw].
  unfold match_at, atoms. cbn [pattern re_pre re_grp re_post].
  fold block_head. rewrite match_atoms_lits.
  cbn [app match_atoms]. rewrite Hc.
  rewrite (greedy_longest not_gt _ w (gt_sign :: rest) [[gt_sign]] rest Hw).
  - rewrite skipn_app_exact by (unfold lits; now rewrite !length_map).
    rewrite concat_app, concat_singletons.
    cbn [length firstn concat app]. now rewrite !app_nil_r.
  - reflexivity.
  - cbn [match_atoms lit]. now rewrite N.eqb_refl.
Qed.

Lemma block_no_match_char c s :
  c <> 98 -> match_at pattern (c :: s) = None.
Proof.
  intros Hc. unfold match_at, atoms.
  cbn [pattern re_pre re_grp re_post]. unfold block_head.
  change (lits (str "bindings = <"))
    with (lit 98 :: lits (str "indings = <")).
  cbn [app match_atoms lit].
  destruct (N.eqb_spec 98 c) as [E|_]; [congruence|reflexivity].
Qed.

(** C10, first half: the pattern does not match [bindings = <>], whatever
    follows it. *)
Lemma block_no_match_empty rest :
  match_at pattern (block_head ++ gt_sign :: rest) = None.
Proof.
  unfold match_at, atoms. cbn [pattern re_pre re_grp re_post].
  fold block_head. rewrite match_atoms_lits. reflexivity.
Qed.

Lemma no_block_no_match s : ~ has_block s -> match_at pattern s = None.
Proof.
  intros Hs. destruct (match_at pattern s) as [[m rest]|] eqn:E;
    [|reflexivity].
  exfalso. apply Hs. apply block_match_sound in E.
  destruct E as (Hb & Hg & ->). exists [], (group1 m), rest. split.
  - rewrite Hg. cbn [app]. now rewrite <- !app_assoc.
  - exact Hb.
Qed.

Lemma has_block_cons c s : has_block s -> has_block (c :: s).
Proof.
  intros (pre & body & post & -> & Hb). now exists (c :: pre), body, post.
Qed.

Lemma sub_nil : format_keymap_bindings [] = [].
Proof. reflexivity. Qed.

Lemma sub_skip c s :
  match_at pattern (c :: s) = None ->
  format_keymap_bindings (c :: s) = c :: format_keymap_bindings s.
Proof.
  intros H. unfold format_keymap_bindings, sub.
  now rewrite (scan_all_skip _ _ _ _ _ H).
Qed.

Lemma sub_match s m rest :
  match_at pattern s = Some (m, rest) ->
  format_keymap_bindings s = format_bindings m ++ format_keymap_bindings rest.
Proof.
  intros H. unfold format_keymap_bindings, sub.
  now rewrite (scan_all_match _ _ _ _ _ _ H (pattern_never_empty _ _ _ H)).
Qed.

Lemma sub_no_block s : ~ has_block s -> format_keymap_bindings s = s.
Proof.
  induction s as [|c s IH]; intros Hs; [reflexivity|].
  rewrite sub_skip by now apply no_block_no_match.
  f_equal. apply IH. intros H. apply Hs. now apply has_block_cons.
Qed.

(** C5: a text without any [bindings = < ... >] block is returned as it is;
    and for every text the scan cuts it into the characters outside the
    blocks and the matched blocks (each [bindings = <], a non-empty body
    without [>], and [>]); the output is the same sequence with every outside
    character kept and every block replaced by its rewriting. *)
Theorem frame (content : text) :
  (~ has_block content -> format_keymap_bindings content = content) /\
  let segs := segments pattern content in
  content = flat_map (fun sg => match sg with
                                | inl c => [c]
                                | inr m => group0 m
                                end) segs /\
  format_keymap_bindings content =
    flat_map (fun sg => match sg with
                        | inl c => [c]
                        | inr m => format_bindings m
                        end) segs /\
  forall m, In (inr m) segs ->
    is_body (group1 m) /\ group0 m = block_head ++ group1 m ++ [gt_sign].
Proof.
  split; [apply sub_no_block|]. intros segs. subst segs.
  split; [|split].
  - symmetry. apply segments_source, pattern_never_empty.
  - unfold format_keymap_bindings, sub.
    apply scan_all_segments, pattern_never_empty.
  - intros m Hm.
    destruct (segments_matches _ pattern_never_empty _ _ Hm)
      as (s' & rest & E).
    apply block_match_sound in E. tauto.
Qed.

Lemma frame_witness :
  format_keymap_bindings (str "a = <1>;") = str "a = <1>;" /\
  format_keymap_bindings (str "x bindings = <&kp A> y") =
    [120; space] ++ format_bindings (Match (str "bindings = <&kp A>")
                                           (str "&kp A")) ++ [space; 121].
Proof.
  split.
  - apply (proj1 (frame (str "a = <1>;"))).
    intros (pre & body & post & E & _).
    assert (H : contains block_head (str "a = <1>;") = false)
      by reflexivity.
    revert H. rewrite E. clear E.
    induction pre as [|c pre IH]; cbn [app contains].
    + destruct (startswith block_head (block_head ++ body ++ gt_sign :: post))
        eqn:Es; [discriminate|].
      revert Es. unfold block_head. cbn [str map app startswith
        String.list_ascii_of_string]. vm_compute. discriminate.
    + intros H. apply orb_false_elim in H. destruct H as [_ H].
      exact (IH H).
  - destruct (frame (str "x bindings = <&kp A> y")) as (_ & _ & E & _).
    rewrite E. reflexivity.
Defined.

(** *** The construct with an empty body *)

Lemma firstn_app_le {A} (a b : list A) n :
  (n <= length a)%nat -> firstn n (a ++ b) = firstn n a.
Proof.
  intros Hn. rewrite firstn_app.
  replace (n - length a)%nat with 0%nat by lia.
  now rewrite firstn_0, app_nil_r.
Qed.


Lemma sub_skip_all j t :
  Forall (fun c => c <> 98) j ->
  format_keymap_bindings (j ++ t) = j ++ format_keymap_bindings t.
Proof.
  induction 1 as [|c j Hc Hj IH]; [reflexivity|].
  cbn [app]. rewrite sub_skip by now apply block_no_match_char.
  now rewrite IH.
Qed.

Lemma block_match_lt s m rest :
  match_at pattern s = Some (m, rest) -> nth 11 s 0 = lt_sign.
Proof.
  intros H. apply block_match_sound in H. destruct H as (_ & Hg & ->).
  rewrite Hg. reflexivity.
Qed.

Lemma Forall_nth_neq (l : text) (x : char) n :
  Forall (fun c => c <> x) l -> (n < length l)%nat -> nth n l 0 <> x.
Proof.
  intros H. revert n. induction H as [|c l Hc Hl IH]; intros n Hn.
  - simpl in Hn. lia.
  - destruct n as [|n]; [exact Hc|]. simpl in Hn. apply IH. lia.
Qed.

Lemma no_match_before_empty pre c post :
  startswith block_head (c :: pre) = false ->
  match_at pattern ((c :: pre) ++ str "bindings = <>" ++ post) = None.
Proof.
  intros Hpre.
  destruct (match_at pattern ((c :: pre) ++ str "bindings = <>" ++ post))
    as [[m rest]|] eqn:E; [|reflexivity].
  exfalso.
  destruct (Nat.le_gt_cases 12 (length (c :: pre))) as [Hlen|Hlen].
  - apply block_match_sound in E. destruct E as (_ & Hg & E).
    rewrite Hg, <- !app_assoc in E.
    assert (Hf : firstn 12 (c :: pre) = block_head).
    { rewrite <- (firstn_app_le (c :: pre) (str "bindings = <>" ++ post))
        by exact Hlen.
      rewrite E. now rewrite firstn_app_le by (simpl; lia). }
    assert (Hs : startswith block_head (c :: pre) = true).
    { apply startswith_spec. exists (skipn 12 (c :: pre)).
      rewrite <- Hf. symmetry. apply firstn_skipn. }
    congruence.
  - apply block_match_lt in E. revert E.
    rewrite app_nth2 by lia.
    change (str "bindings = <>" ++ post)
      with (str "bindings = " ++ lt_sign :: gt_sign :: post).
    assert (Hk : (11 - length (c :: pre) < length (str "bindings = "))%nat)
      by (change (length (str "bindings = ")) with 11%nat;
          cbn [length]; lia).
    rewrite app_nth1 by exact Hk.
    apply Forall_nth_neq; [repeat constructor; discriminate|exact Hk].
Qed.

(** *** Running the transform twice *)

Lemma is_ident_not_gt c : is_ident c = true -> not_gt c = true.
Proof.
  unfold is_ident, not_gt, gt_sign. intros H.
  destruct (N.eqb_spec c 62) as [->|_]; [discriminate H|reflexivity].
Qed.

Lemma forallb_weaken {A} (p q : A -> bool) l :
  (forall x, p x = true -> q x = true) ->
  forallb p l = true -> forallb q l = true.
Proof.
  intros Hpq. induction l as [|x l IH]; [reflexivity|]. simpl.
  intros H. apply andb_prop in H. destruct H as [Hx Hl].
  now rewrite (Hpq _ Hx), IH.
Qed.

Lemma token_not_gt t : is_token t -> forallb not_gt t = true.
Proof.
  intros (w & -> & _ & Hw). cbn [forallb]. apply andb_true_intro.
  split; [reflexivity|]. exact (forallb_weaken _ _ _ is_ident_not_gt Hw).
Qed.

Lemma forallb_join p sep parts :
  forallb p sep = true -> Forall (fun t => forallb p t = true) parts ->
  forallb p (join sep parts) = true.
Proof.
  intros Hsep. induction 1 as [|t parts Ht Hparts IH]; [reflexivity|].
  destruct parts as [|t' parts]; [exact Ht|].
  change (join sep (t :: t' :: parts))
    with (t ++ sep ++ join sep (t' :: parts)).
  rewrite !forallb_app, Ht, Hsep, IH. reflexivity.
Qed.

Lemma ljust_not_gt t : forallb not_gt t = true ->
  forallb not_gt (ljust 12 t) = true.
Proof.
  intros Ht. unfold ljust. rewrite forallb_app, Ht. cbn [andb].
  induction (12 - length t)%nat as [|n IH]; [reflexivity|exact IH].
Qed.

Lemma grid_not_gt toks :
  Forall is_token toks ->
  forallb not_gt (join row_sep (format_rows toks)) = true.
Proof.
  intros Ht. rewrite format_rows_map. apply forallb_join; [reflexivity|].
  apply Forall_forall. intros row Hrow. apply in_map_iff in Hrow.
  destruct Hrow as (k & <- & _).
  apply forallb_join; [reflexivity|].
  apply Forall_forall. intros f Hf. apply in_map_iff in Hf.
  destruct Hf as (t & <- & Hin). apply ljust_not_gt, token_not_gt.
  pose proof (Forall_firstn_skipn is_token toks 10 (10 * k) Ht) as HF.
  exact (proj1 (Forall_forall _ _) HF t Hin).
Qed.

Lemma render_eq toks :
  render toks = block_head ++ render_body toks ++ [gt_sign].
Proof.
  unfold render, render_body, block_open, block_close, block_head.
  generalize (join row_sep (format_rows toks)) as g. intros g.
  rewrite <- !app_assoc. reflexivity.
Qed.

Lemma render_body_is_body toks :
  Forall is_token toks -> is_body (render_body toks).
Proof.
  intros Ht. split; [discriminate|]. unfold render_body.
  rewrite !forallb_app, (grid_not_gt toks Ht). reflexivity.
Qed.

Lemma findall_render_body toks :
  Forall is_token toks -> findall token_re (render_body toks) = toks.
Proof.
  intros Ht. unfold render_body.
  rewrite (findall_skip_all [bslash; nl])
    by (repeat constructor; discriminate).
  rewrite (findall_skip_all (str "        "))
    by (repeat constructor; discriminate).
  rewrite findall_grid; [|assumption|reflexivity].
  change (findall token_re ([bslash; nl] ++ str "    ")) with (@nil text).
  apply app_nil_r.
Qed.

(** A written block is matched again, and rewritten into itself. *)
Lemma sub_render toks rest :
  Forall is_token toks ->
  format_keymap_bindings (render toks ++ rest) =
  render toks ++ format_keymap_bindings rest.
Proof.
  intros Ht. rewrite render_eq. rewrite <- !app_assoc. cbn [app].
  rewrite (sub_match _ _ _
             (block_match _ rest (render_body_is_body toks Ht))).
  unfold format_bindings. cbn [group1].
  rewrite (findall_render_body toks Ht), render_eq.
  now rewrite <- !app_assoc.
Qed.

(** The transform keeps the first twelve characters of any text. *)
Lemma sub_prefix s :
  forall n, (n <= 12)%nat ->
    firstn n (format_keymap_bindings s) = firstn n s.
Proof.
  unfold format_keymap_bindings, sub.
  apply (scan_all_ind pattern format_bindings (fun c => [c])
           (fun s out => forall n, (n <= 12)%nat ->
                                   firstn n out = firstn n s)).
  - exact pattern_never_empty.
  - reflexivity.
  - intros c s' out _ IH [|n] Hn; [reflexivity|].
    cbn [app firstn]. f_equal. apply IH. lia.
  - intros s' m rest out Hm _ _ _ n Hn.
    apply block_match_sound in Hm. destruct Hm as (_ & Hg & ->).
    rewrite Hg. unfold format_bindings. rewrite render_eq.
    rewrite <- !app_assoc. now rewrite !(firstn_app_le block_head).
Qed.

Lemma not_gt_no_block t : forallb not_gt t = true -> ~ has_block t.
Proof.
  intros Ht (pre & body & post & -> & _).
  assert (H : not_gt gt_sign = true); [|discriminate H].
  apply (proj1 (forallb_forall _ _) Ht).
  rewrite !in_app_iff. right. right. right. now left.
Qed.

Lemma split_gt t :
  forallb not_gt t = true \/
  exists a b, t = a ++ gt_sign :: b /\ forallb not_gt a = true.
Proof.
  induction t as [|c t IH]; [now left|].
  destruct (N.eqb_spec c gt_sign) as [->|Hc].
  - right. now exists [], t.
  - assert (Hn : not_gt c = true)
      by (unfold not_gt; now destruct (N.eqb_spec c gt_sign)).
    destruct IH as [H|(a & b & -> & Ha)].
    + left. cbn [forallb]. now rewrite Hn, H.
    + right. exists (c :: a), b. split; [reflexivity|].
      cbn [forallb]. now rewrite Hn, Ha.
Qed.

(** Where the pattern did not match, it does not match after the text that
    follows has been transformed. *)
Lemma no_match_stable c s :
  match_at pattern (c :: s) = None ->
  match_at pattern (c :: format_keymap_bindings s) = None.
Proof.
  intros H.
  destruct (match_at pattern (c :: format_keymap_bindings s))
    as [[m rest]|] eqn:E; [|reflexivity].
  exfalso. apply block_match_sound in E. destruct E as ((Hne & Hb) & Hg & E).
  rewrite Hg in E. clear Hg.
  assert (Hhead : firstn 12 (c :: s) = block_head).
  { rewrite (firstn_cons 11 c s), <- (sub_prefix s 11) by lia.
    rewrite <- firstn_cons, E, <- !app_assoc.
    now rewrite firstn_app_le by (simpl; lia). }
  pose proof (firstn_skipn 12 (c :: s)) as Hs. rewrite Hhead in Hs.
  set (t := skipn 12 (c :: s)) in *. clearbody t.
  change block_head with (98 :: str "indings = <") in Hs.
  cbn [app] in Hs. injection Hs as Hc Hs'. subst c.
  change (str "indings = <" ++ t = s) in Hs'. rewrite <- Hs' in E, H.
  rewrite sub_skip_all in E by (repeat constructor; discriminate).
  change (98 :: str "indings = <" ++ format_keymap_bindings t)
    with (block_head ++ format_keymap_bindings t) in E.
  rewrite <- !app_assoc in E. apply app_inv_head in E. cbn [app] in E.
  change (98 :: str "indings = <" ++ t) with (block_head ++ t) in H.
  destruct (split_gt t) as [Ht|(a & b & -> & Ha)].
  - rewrite (sub_no_block t (not_gt_no_block t Ht)) in E.
    rewrite E, forallb_app in Ht. cbn in Ht.
    rewrite Bool.andb_false_r in Ht. discriminate.
  - destruct a as [|x a].
    + cbn [app] in E.
      rewrite sub_skip in E by (apply block_no_match_char; discriminate).
      destruct (group1 m) as [|y body]; [congruence|].
      cbn [app] in E. inversion E; subst y. discriminate Hb.
    + rewrite (block_match (x :: a) b) in H; [discriminate|].
      split; [discriminate|assumption].
Qed.

(** C9: the grid transform is idempotent: applied to its own output it
    returns that output. *)
Theorem format_idempotent (content : text) :
  format_keymap_bindings (format_keymap_bindings content) =
  format_keymap_bindings content.
Proof.
  remember (length content) as n eqn:Hn. revert content Hn.
  induction n as [n IH] using lt_wf_ind. intros s Hn.
  destruct (match_at pattern s) as [[m rest]|] eqn:E.
  - rewrite (sub_match _ _ _ E). unfold format_bindings.
    rewrite sub_render by apply findall_tokens. f_equal.
    apply (IH (length rest)); [|reflexivity].
    pose proof (pattern_never_empty _ _ _ E) as Hne.
    apply block_match_sound in E. destruct E as (_ & _ & ->).
    subst n. rewrite length_app. destruct (group0 m); [congruence|simpl; lia].
  - destruct s as [|c s]; [reflexivity|].
    rewrite (sub_skip _ _ E).
    rewrite (sub_skip _ _ (no_match_stable _ _ E)). f_equal.
    apply (IH (length s)); [subst n; simpl; lia|reflexivity].
Qed.

(** *** The construct with an empty body, after other text *)

Lemma ends_open_tail c s : ends_open (c :: s) = false -> ends_open s = false.
Proof.
  cbn [ends_open]. intros H. now apply orb_false_elim in H.
Qed.

Lemma ends_open_suffix a r : ends_open (a ++ r) = false -> ends_open r = false.
Proof.
  induction a as [|c a IH]; intros H; [exact H|].
  apply IH. now apply (ends_open_tail c).
Qed.

Lemma ends_open_here s :
  startswith block_head s = true ->
  forallb not_gt (skipn 12 s) = true -> ends_open s = true.
Proof.
  intros H1 H2. destruct s as [|c s]; cbn [ends_open]; now rewrite H1, H2.
Qed.

Lemma closed_head_has_gt u2 :
  ends_open (block_head ++ u2) = false -> forallb not_gt u2 = false.
Proof.
  intros H. destruct (forallb not_gt u2) eqn:E; [|reflexivity].
  rewrite ends_open_here in H; [discriminate H| |].
  - apply startswith_spec. now exists u2.
  - now rewrite (skipn_app_exact block_head u2 12 eq_refl).
Qed.

Lemma sub_before_empty n :
  forall u post,
    length u = n -> ends_open u = false ->
    format_keymap_bindings (u ++ str "bindings = <>" ++ post) =
    format_keymap_bindings u ++ str "bindings = <>" ++
    format_keymap_bindings post.
Proof.
  induction n as [n IH] using lt_wf_ind. intros u post Hn Hu.
  destruct u as [|c u].
  - cbn [app].
    change (str "bindings = <>" ++ post)
      with (98 :: (str "indings = <" ++ [gt_sign]) ++ post).
    rewrite sub_skip by apply (block_no_match_empty post).
    rewrite sub_skip_all by (repeat constructor; discriminate).
    reflexivity.
  - destruct (match_at pattern (c :: u)) as [[m r]|] eqn:E.
    + pose proof (block_match_sound _ _ _ E) as (Hb & Hg & Hs).
      assert (E' : match_at pattern ((c :: u) ++ str "bindings = <>" ++ post)
                   = Some (m, r ++ str "bindings = <>" ++ post)).
      { rewrite Hs, Hg, <- !app_assoc. cbn [app].
        rewrite (block_match (group1 m) _ Hb).
        destruct m as [g0 g1]. cbn [group0 group1] in *. now rewrite Hg. }
      rewrite (sub_match _ _ _ E), (sub_match _ _ _ E'), <- app_assoc.
      f_equal. apply (IH (length r)); [|reflexivity|].
      * subst n. rewrite Hs, length_app.
        pose proof (pattern_never_empty _ _ _ E).
        destruct (group0 m); [congruence|simpl; lia].
      * apply (ends_open_suffix (group0 m)). now rewrite <- Hs.
    + assert (E' : match_at pattern ((c :: u) ++ str "bindings = <>" ++ post)
                   = None).
      { destruct (startswith block_head (c :: u)) eqn:Hh;
          [|now apply no_match_before_empty].
        apply startswith_spec in Hh. destruct Hh as (u2 & Hh).
        rewrite Hh in Hu, E |- *.
        pose proof (closed_head_has_gt u2 Hu) as Hgt.
        destruct (split_gt u2) as [Hno|(a & b & -> & Ha)]; [congruence|].
        destruct a as [|x a].
        - rewrite <- app_assoc. cbn [app]. apply block_no_match_empty.
        - rewrite (block_match (x :: a) b) in E; [discriminate E|].
          split; [discriminate|exact Ha]. }
      cbn [app] in E' |- *.
      rewrite (sub_skip _ _ E), (sub_skip _ _ E'). cbn [app]. f_equal.
      apply (IH (length u)); [subst n; simpl; lia|reflexivity|].
      now apply (ends_open_tail c).
Qed.

(** C10, as the script does it: the pattern does not match at
    [bindings = <>], whatever follows it; and unless the construct stands
    after a [bindings = <] that has no [>] between the two, it is written
    back as it is: the text before it and the text after it are transformed
    on their own. *)
Theorem empty_body_untouched (pre post : text) :
  match_at pattern (str "bindings = <>" ++ post) = None /\
  (ends_open pre = false ->
   format_keymap_bindings (pre ++ str "bindings = <>" ++ post) =
   format_keymap_bindings pre ++ str "bindings = <>" ++
   format_keymap_bindings post).
Proof.
  split; [apply (block_no_match_empty post)|].
  intros Hpre. now apply (sub_before_empty (length pre)).
Qed.

(** A block before the construct is rewritten; the construct stays. *)
Lemma empty_body_untouched_witness :
  ends_open (str "bindings = <&kp A>; ") = false /\
  format_keymap_bindings
    (str "bindings = <&kp A>; " ++ str "bindings = <>" ++ str "; x") =
  format_keymap_bindings (str "bindings = <&kp A>; ") ++
  str "bindings = <>" ++ format_keymap_bindings (str "; x").
Proof.
  split; [reflexivity|].
  apply (empty_body_untouched (str "bindings = <&kp A>; ") (str "; x")).
  reflexivity.
Defined.

(** C10, as it is written, fails after an open [bindings = <]: the earlier
    match runs up to the [>] of the construct, and the whole is rewritten
    into an empty grid. *)
Lemma empty_body_swallowed_counterexample :
  format_keymap_bindings (str "bindings = <bindings = <>") =
    str "bindings = <" ++ [bslash; nl] ++ str "        " ++
    [bslash; nl] ++ str "    >" /\
  format_keymap_bindings (str "bindings = <bindings = <>") <>
    str "bindings = <bindings = <>".
Proof.
  split; [vm_compute; reflexivity|]. vm_compute. discriminate.
Qed.

End BlockFacts.

(** ** The checks of the validator *)

Module ValidatorFacts.
Import Regex TextFacts RegexFacts Validator.

(** [findall] returns something exactly when the pattern matches at some
    position of the text. *)
Lemma findall_found r s :
  never_empty r ->
  findall r s <> [] <->
  exists pre suf m rest, s = pre ++ suf /\ match_at r suf = Some (m, rest).
Proof.
  intros Hr. unfold findall. induction s as [|c s IH].
  - rewrite (scan_all_nil r _ _ (never_empty_nil r Hr)). split.
    + congruence.
    + intros (pre & suf & m & rest & E & Hm). symmetry in E.
      apply app_eq_nil in E. destruct E as [_ ->].
      rewrite (never_empty_nil r Hr) in Hm. discriminate.
  - destruct (match_at r (c :: s)) as [[m rest]|] eqn:E.
    + rewrite (scan_all_match r _ _ _ _ _ E (Hr _ _ _ E)). split.
      * intros _. now exists [], (c :: s), m, rest.
      * discriminate.
    + rewrite (scan_all_skip r _ _ _ _ E). cbn [app]. rewrite IH. split.
      * intros (pre & suf & m & rest & -> & Hm).
        now exists (c :: pre), suf, m, rest.
      * intros (pre & suf & m & rest & Es & Hm).
        destruct pre as [|x pre]; cbn [app] in Es.
        -- subst suf. congruence.
        -- injection Es as _ Es. now exists pre, suf, m, rest.
Qed.

Section Unicode.
Variables uni_alnum uni_space : char -> bool.
Variable encodable : char -> bool.

Lemma layer_re_atoms :
  atoms (layer_re uni_alnum uni_space) =
  [Plus (is_word uni_alnum)] ++ lits (str "_layer") ++
  [Star (is_space uni_space); lit lbrace].
Proof. reflexivity. Qed.

Lemma concat_layer_pieces w ws :
  concat (layer_pieces w ws) = w ++ str "_layer" ++ ws ++ [lbrace].
Proof.
  unfold layer_pieces. rewrite !concat_app, concat_singletons.
  cbn [concat]. now rewrite !app_nil_r.
Qed.

Lemma layer_re_never_empty : never_empty (layer_re uni_alnum uni_space).
Proof. apply starts_consuming_never_empty. exact I. Qed.

Lemma layer_match_sound s m rest :
  match_at (layer_re uni_alnum uni_space) s = Some (m, rest) ->
  is_layer_decl uni_alnum uni_space (group0 m) /\ s = group0 m ++ rest.
Proof.
  intros H. apply match_at_sound in H.
  destruct H as (Hs & ps & HF & Hg & _). split; [|assumption].
  rewrite Hg. rewrite layer_re_atoms in HF.
  apply Forall2_app_inv_l in HF.
  destruct HF as (ps1 & ps' & HF1 & HF' & ->).
  apply Forall2_lits in HF'. destruct HF' as (ps2 & -> & HF2).
  inversion HF1 as [|? w ? ? Hw HF1']; subst. inversion HF1'; subst.
  inversion HF2 as [|? ws ? ps3 Hws HF3]; subst.
  inversion HF3 as [|? b ? ps4 Hb HF4]; subst. inversion HF4; subst.
  unfold lit, atom_lang in Hw, Hws, Hb. destruct Hw as [Hne Hw].
  destruct Hb as (c & -> & Hc). apply N.eqb_eq in Hc. subst c.
  exists w, ws. split; [apply (concat_layer_pieces w ws)|].
  now repeat split.
Qed.

Lemma layer_match_complete d post :
  is_layer_decl uni_alnum uni_space d ->
  match_at (layer_re uni_alnum uni_space) (d ++ post) <> None.
Proof.
  intros (w & ws & -> & Hne & Hw & Hws).
  assert (HF : Forall2 atom_lang (atoms (layer_re uni_alnum uni_space))
                       (layer_pieces w ws)).
  { rewrite layer_re_atoms. unfold layer_pieces.
    apply Forall2_app; [constructor; [now split|constructor]|].
    apply Forall2_app.
    - unfold lits. induction (str "_layer") as [|c l IH]; constructor.
      + exists c. split; [reflexivity|apply N.eqb_refl].
      + exact IH.
    - constructor; [exact Hws|]. constructor; [|constructor].
      exists lbrace. now split. }
  pose proof (match_atoms_complete _ _ HF post) as Hc.
  rewrite concat_layer_pieces in Hc. unfold match_at.
  destruct (match_atoms (atoms (layer_re uni_alnum uni_space)) _)
    as [[ps rest]|]; [discriminate|congruence].
Qed.

(** [findall] finds a layer exactly when the text holds a layer
    declaration. *)
Lemma layer_found content :
  findall (layer_re uni_alnum uni_space) content <> [] <->
  has_layer uni_alnum uni_space content.
Proof.
  rewrite (findall_found _ _ layer_re_never_empty). split.
  - intros (pre & suf & m & rest & -> & Hm).
    apply layer_match_sound in Hm. destruct Hm as [Hd ->].
    now exists pre, (group0 m), rest.
  - intros (pre & d & post & -> & Hd).
    pose proof (layer_match_complete d post Hd) as Hm.
    destruct (match_at (layer_re uni_alnum uni_space) (d ++ post))
      as [[m rest]|] eqn:E; [|congruence].
    now exists pre, (d ++ post), m, rest.
Qed.

Lemma layer_count_present content :
  negb (length (findall (layer_re uni_alnum uni_space) content) =? 0)%nat
    = true <-> has_layer uni_alnum uni_space content.
Proof.
  rewrite negb_true_iff, Nat.eqb_neq, length_zero_iff_nil.
  apply layer_found.
Qed.

Lemma check_content_reports content :
  check_content uni_alnum uni_space content =
  (if contains include_behaviors content then [] else [msg_behaviors]) ++
  (if contains include_keys content then [] else [msg_keys]) ++
  (if contains compatible_keymap content then [] else [msg_compatible]) ++
  (if negb (length (findall (layer_re uni_alnum uni_space) content) =? 0)%nat
   then [] else [msg_layers]).
Proof.
  unfold check_content.
  destruct (contains include_behaviors content),
           (contains include_keys content),
           (contains compatible_keymap content),
           (length (findall (layer_re uni_alnum uni_space) content) =? 0)%nat;
    reflexivity.
Qed.

(** C3: for a file that can be read, the four checks are each evaluated:
    the error list is the diagnostic of the first include if that include
    is missing, followed by that of the second include, of the keymap node
    and of the layers, each present exactly when its own check fails; so
    the list is empty exactly when the four elements are all present. *)
Theorem validate_checks (fs : text -> io_result text)
        (keymap_file content : text) :
  fs keymap_file = Ok content ->
  let errors := validate_keymap_syntax uni_alnum uni_space fs keymap_file in
  (exists b1 b2 b3 b4 : bool,
      (b1 = true <-> occurs (str "#include <behaviors.dtsi>") content) /\
      (b2 = true <->
       occurs (str "#include <dt-bindings/zmk/keys.h>") content) /\
      (b3 = true <->
       occurs (str "compatible = " ++ [dquote] ++ str "zmk,keymap"
                 ++ [dquote]) content) /\
      (b4 = true <-> has_layer uni_alnum uni_space content) /\
      errors =
        (if b1 then []
         else [str "Missing required include: #include <behaviors.dtsi>"])
        ++ (if b2 then []
            else [str "Missing required include: #include <dt-bindings/zmk/keys.h>"])
        ++ (if b3 then []
            else [str "Missing keymap node with compatible property"])
        ++ (if b4 then [] else [str "No layers found in keymap"])) /\
  (errors = [] <->
   occurs (str "#include <behaviors.dtsi>") content /\
   occurs (str "#include <dt-bindings/zmk/keys.h>") content /\
   occurs (str "compatible = " ++ [dquote] ++ str "zmk,keymap" ++ [dquote])
          content /\
   has_layer uni_alnum uni_space content).
Proof.
  intros Hfs errors. subst errors. unfold validate_keymap_syntax.
  rewrite Hfs, check_content_reports.
  fold include_behaviors include_keys compatible_keymap.
  fold msg_behaviors msg_keys msg_compatible msg_layers.
  pose proof (contains_spec include_behaviors content) as H1.
  pose proof (contains_spec include_keys content) as H2.
  pose proof (contains_spec compatible_keymap content) as H3.
  pose proof (layer_count_present content) as H4.
  split.
  - exists (contains include_behaviors content),
           (contains include_keys content),
           (contains compatible_keymap content),
           (negb (length (findall (layer_re uni_alnum uni_space) content)
                  =? 0)%nat).
    repeat split; tauto.
  - destruct (contains include_behaviors content),
             (contains include_keys content),
             (contains compatible_keymap content),
             (negb (length (findall (layer_re uni_alnum uni_space) content)
                    =? 0)%nat); cbn [app];
      (split; [intros E; try discriminate E; tauto|]);
      intros (G1 & G2 & G3 & G4);
      apply H1 in G1; apply H2 in G2; apply H3 in G3; apply H4 in G4;
      try reflexivity; discriminate.
Qed.

Lemma print_header_then (lines : list text) :
  print_lines encodable (str "Errors found:" :: lines) =
  let (printed, end_) := print_lines encodable lines in
  (str "Errors found:" :: printed, end_).
Proof. reflexivity. Qed.


(** C6, as the script does it: for a file without
    [#include <behaviors.dtsi>] that has the three other elements, the
    script prints the header [Errors found:] first, then the one diagnostic
    line of the missing include, and runs to its end. *)
Theorem scenario2_header_first (fs : text -> io_result text)
        (script keymap_file content : text) (more : list text) :
  fs keymap_file = Ok content ->
  ~ occurs (str "#include <behaviors.dtsi>") content ->
  occurs (str "#include <dt-bindings/zmk/keys.h>") content ->
  occurs (str "compatible = " ++ [dquote] ++ str "zmk,keymap" ++ [dquote])
         content ->
  has_layer uni_alnum uni_space content ->
  main uni_alnum uni_space encodable fs (script :: keymap_file :: more) =
    ([str "Errors found:";
      str "  - Missing required include: #include <behaviors.dtsi>"],
     Finished).
Proof.
  intros Hfs H1 H2 H3 H4.
  fold include_behaviors in H1. fold include_keys in H2.
  fold compatible_keymap in H3.
  rewrite <- contains_spec in H1, H2, H3.
  rewrite <- layer_count_present in H4.
  unfold main, validate_keymap_syntax. cbn [length nth].
  rewrite Hfs, check_content_reports, H2, H3, H4.
  destruct (contains include_behaviors content); [now contradiction H1|].
  reflexivity.
Qed.

End Unicode.

(** C6, as it is written, fails on that file: the diagnostic line is not
    printed before the header. *)
Lemma scenario2_order_counterexample :
  contains include_behaviors scenario2_content = false /\
  contains include_keys scenario2_content = true /\
  contains compatible_keymap scenario2_content = true /\
  length (findall (layer_re ascii_only ascii_only) scenario2_content) = 1%nat
  /\
  fst (main ascii_only ascii_only ascii_only (fun _ => Ok scenario2_content)
            [str "validate_keymap.py"; str "my.keymap"]) <>
  [str "  - Missing required include: #include <behaviors.dtsi>";
   str "Errors found:"].
Proof.
  repeat split; try (vm_compute; reflexivity).
  vm_compute. discriminate.
Qed.

(** A file with the four elements. *)
Lemma validate_checks_witness :
  let content := str "#include <behaviors.dtsi>" ++ [nl] ++ scenario2_content in
  validate_keymap_syntax ascii_only ascii_only (fun _ => Ok content)
    (str "my.keymap") = [] <->
  occurs (str "#include <behaviors.dtsi>") content /\
  occurs (str "#include <dt-bindings/zmk/keys.h>") content /\
  occurs (str "compatible = " ++ [dquote] ++ str "zmk,keymap" ++ [dquote])
         content /\
  has_layer ascii_only ascii_only content.
Proof.
  intros content.
  exact (proj2 (validate_checks ascii_only ascii_only (fun _ => Ok content)
                  (str "my.keymap") content eq_refl)).
Defined.



Lemma scenario2_header_first_witness :
  main ascii_only ascii_only ascii_only (fun _ => Ok scenario2_content)
       [str "validate_keymap.py"; str "my.keymap"] =
  ([str "Errors found:";
    str "  - Missing required include: #include <behaviors.dtsi>"],
   Finished).
Proof.
  apply (scenario2_header_first ascii_only ascii_only ascii_only
           (fun _ => Ok scenario2_content)
           (str "validate_keymap.py") (str "my.keymap") scenario2_content []
           eq_refl).
  - intros H. apply contains_spec in H. vm_compute in H. discriminate H.
  - apply contains_spec. vm_compute. reflexivity.
  - apply contains_spec. vm_compute. reflexivity.
  - apply layer_count_present. vm_compute. reflexivity.
Defined.

End ValidatorFacts.

(** ** The formatter and the external formatter *)

Module FormatterFacts.
Import Regex Formatter.

Lemma text_eqb_refl t : text_eqb t t = true.
Proof.
  induction t as [|c t IH]; [reflexivity|].
  cbn [text_eqb]. now rewrite N.eqb_refl, IH.
Qed.

Lemma read_write_file path content w :
  read_file (write_file path content w) path = Ok content.
Proof. unfold write_file. cbn [read_file]. now rewrite text_eqb_refl. Qed.

(** C4: for a file that can be read and written, with [grid] the text after
    the grid formatting: when the external formatter exits with a non-zero
    status, [grid] is written back; when the external formatter is not
    found, a note is printed and [grid] is written back; when it exits with
    status zero, its standard output is written back.  In the three cases
    the confirmation line is printed last. *)
Theorem external_formatter (e : env) (file_path content : text) (w : world) :
  read_file w file_path = Ok content ->
  write_error e file_path = None ->
  let grid := format_keymap_bindings content in
  let w' := format_with_clang_and_grid e file_path w in
  (forall returncode out err,
      clang_format e grid = Exited returncode out err ->
      returncode <> 0%Z ->
      read_file w' file_path = Ok grid /\
      printed w' = printed w ++ [str "Formatted " ++ file_path]) /\
  (clang_format e grid = NotFound ->
   read_file w' file_path = Ok grid /\
   printed w' =
     printed w ++
       [str "clang-format not found, using custom formatting only";
        str "Formatted " ++ file_path]) /\
  (forall out err,
      clang_format e grid = Exited 0 out err ->
      read_file w' file_path = Ok out /\
      printed w' = printed w ++ [str "Formatted " ++ file_path]).
Proof.
  intros Hr Hw grid w'. subst grid w'.
  unfold format_with_clang_and_grid, apply_clang. rewrite Hr.
  split; [|split].
  - intros rc out err Hc Hrc. rewrite Hc, Hw.
    destruct (Z.eqb_spec rc 0) as [->|_]; [congruence|].
    split; [apply read_write_file|reflexivity].
  - intros Hc. rewrite Hc, Hw.
    split; [apply read_write_file|].
    cbn [print write_file printed]. now rewrite <- app_assoc.
  - intros out err Hc. rewrite Hc, Hw. cbn [Z.eqb].
    split; [apply read_write_file|reflexivity].
Qed.

Lemma external_formatter_witness :
  let e := Env (fun _ => NotFound) (fun _ => None) in
  let w := World (fun _ => Ok (str "bindings = <&kp A>")) [] in
  let w' := format_with_clang_and_grid e (str "my.keymap") w in
  read_file w' (str "my.keymap") =
    Ok (format_keymap_bindings (str "bindings = <&kp A>")) /\
  printed w' =
    [str "clang-format not found, using custom formatting only";
     str "Formatted my.keymap"].
Proof.
  intros e w w'.
  destruct (external_formatter e (str "my.keymap")
              (str "bindings = <&kp A>") w eq_refl eq_refl) as (_ & H & _).
  exact (H eq_refl).
Defined.

End FormatterFacts.

(** ** The tokens of a whole file *)

Module TokenSequenceFacts.
Import Regex TextFacts RegexFacts Formatter GridFacts TokenFacts BlockFacts.

Lemma ident_run (l : text) :
  exists run rest,
    l = run ++ rest /\ forallb is_ident run = true /\ ends_token rest.
Proof.
  induction l as [|c l IH].
  - now exists [], [].
  - destruct (is_ident c) eqn:Hc.
    + destruct IH as (run & rest & -> & Hrun & Hrest).
      exists (c :: run), rest. cbn [forallb app]. now rewrite Hc, Hrun.
    + now exists [], (c :: l).
Qed.

Lemma amp_alone rest :
  ends_token rest -> match_at token_re (amp :: rest) = None.
Proof.
  intros H. unfold match_at.
  cbn [atoms token_re re_pre re_grp re_post app match_atoms lit].
  rewrite N.eqb_refl. destruct rest as [|c rest]; [reflexivity|].
  cbn in H. now rewrite H.
Qed.

Lemma findall_no_match c s :
  match_at token_re (c :: s) = None ->
  findall token_re (c :: s) = findall token_re s.
Proof.
  intros H. unfold findall. now rewrite (scan_all_skip _ _ _ _ _ H).
Qed.

Lemma ends_token_app rest c b :
  ends_token rest -> is_ident c = false -> ends_token (rest ++ c :: b).
Proof. intros Hr Hc. destruct rest as [|x rest]; [exact Hc|exact Hr]. Qed.

(** A character that is neither [&] nor an identifier character cuts the
    search for tokens in two. *)
Lemma findall_delim a c b :
  c <> amp -> is_ident c = false ->
  findall token_re (a ++ c :: b) =
  findall token_re a ++ findall token_re b.
Proof.
  intros Hamp Hc. remember (length a) as n eqn:Hn. revert a Hn.
  induction n as [n IH] using lt_wf_ind. intros a Hn.
  destruct a as [|x a].
  - cbn [app]. now rewrite findall_skip.
  - destruct (N.eqb_spec x amp) as [->|Hx].
    + destruct (ident_run a) as (run & rest & -> & Hrun & Hrest).
      destruct run as [|r run].
      * cbn [app].
        rewrite (findall_no_match amp (rest ++ c :: b))
          by now apply amp_alone, ends_token_app.
        rewrite (findall_no_match amp rest) by now apply amp_alone.
        apply (IH (length rest)); [subst n; simpl; lia|reflexivity].
      * assert (Ht : is_token (amp :: r :: run))
          by (exists (r :: run); split; [reflexivity|]; split;
              [discriminate|exact Hrun]).
        change ((amp :: (r :: run) ++ rest) ++ c :: b)
          with (((amp :: r :: run) ++ rest) ++ c :: b).
        rewrite <- app_assoc.
        rewrite (findall_token (amp :: r :: run) (rest ++ c :: b) Ht
                   (ends_token_app rest c b Hrest Hc)).
        change (amp :: (r :: run) ++ rest) with ((amp :: r :: run) ++ rest).
        rewrite (findall_token (amp :: r :: run) rest Ht Hrest).
        cbn [app]. f_equal.
        apply (IH (length rest)); [|reflexivity].
        subst n. cbn [length]. rewrite length_app. simpl. lia.
    + cbn [app]. rewrite !findall_skip by assumption.
      apply (IH (length a)); [subst n; simpl; lia|reflexivity].
Qed.

(** The tokens around and inside a block. *)
Lemma findall_around_block pre body rest :
  findall token_re (pre ++ (block_head ++ body ++ [gt_sign]) ++ rest) =
  findall token_re (pre ++ str "bindings = ") ++
  findall token_re body ++ findall token_re rest.
Proof.
  change block_head with (str "bindings = " ++ [lt_sign]).
  rewrite <- !app_assoc. cbn [app].
  rewrite (app_assoc pre).
  rewrite findall_delim by (try discriminate; reflexivity).
  now rewrite findall_delim by (try discriminate; reflexivity).
Qed.

Lemma findall_sub_context s :
  forall pre,
    findall token_re (pre ++ format_keymap_bindings s) =
    findall token_re (pre ++ s).
Proof.
  unfold format_keymap_bindings, sub.
  apply (scan_all_ind pattern format_bindings (fun c => [c])
           (fun s out => forall pre,
                findall token_re (pre ++ out) = findall token_re (pre ++ s))).
  - exact pattern_never_empty.
  - reflexivity.
  - intros c s' out _ IH pre.
    change (pre ++ [c] ++ out) with (pre ++ [c] ++ out).
    rewrite (app_assoc pre [c] out), IH, <- app_assoc. reflexivity.
  - intros s' m rest out Hm _ _ IH pre.
    apply block_match_sound in Hm. destruct Hm as (_ & Hg & ->).
    rewrite (app_assoc pre (format_bindings m) out), IH, <- app_assoc.
    unfold format_bindings. rewrite render_eq, Hg.
    rewrite !findall_around_block.
    now rewrite findall_render_body by apply findall_tokens.
Qed.

(** X1: the transform keeps the sequence of tokens of the whole text, inside
    and outside the blocks. *)
Theorem file_tokens_preserved (content : text) :
  findall token_re (format_keymap_bindings content) =
  findall token_re content.
Proof. apply (findall_sub_context content []). Qed.

End TokenSequenceFacts.

(** ** The shape of a written block *)

Module BlockShapeFacts.
Import Regex TextFacts RegexFacts Formatter GridFacts TokenFacts BlockFacts.
Local Open Scope nat_scope.

(** X2: whatever the body was, the block written for a match is again a
    bindings block: [bindings = <], a body that is not empty and holds no
    [>], and [>]; the pattern matches it whole, with that body as group 1. *)
Theorem rewritten_block_matches (m : match_obj) (rest : text) :
  let b := render_body (findall token_re (group1 m)) in
  format_bindings m = str "bindings = <" ++ b ++ [gt_sign] /\
  is_body b /\
  match_at pattern (format_bindings m ++ rest) =
    Some (Match (format_bindings m) b, rest).
Proof.
  intros b. subst b. unfold format_bindings.
  pose proof (findall_tokens (group1 m)) as Ht.
  split; [apply render_eq|]. split; [now apply render_body_is_body|].
  rewrite render_eq, <- !app_assoc. cbn [app].
  apply block_match. now apply render_body_is_body.
Qed.

Lemma filter_layout_only (l : text) :
  forallb is_layout l = true ->
  filter (fun c => negb (is_layout c)) l = [].
Proof.
  induction l as [|c l IH]; [reflexivity|]. cbn [forallb filter].
  intros H. apply andb_prop in H. destruct H as [Hc Hl].
  rewrite Hc. cbn [negb]. now apply IH.
Qed.

Lemma filter_no_layout (l : text) :
  forallb (fun c => negb (is_layout c)) l = true ->
  filter (fun c => negb (is_layout c)) l = l.
Proof.
  induction l as [|c l IH]; [reflexivity|]. cbn [forallb filter].
  intros H. apply andb_prop in H. destruct H as [Hc Hl].
  rewrite Hc. now rewrite IH.
Qed.

Lemma is_ident_not_layout c : is_ident c = true -> negb (is_layout c) = true.
Proof.
  unfold is_ident, is_layout, space, bslash, nl. intros H.
  destruct (N.eqb_spec c 32) as [->|_]; [discriminate H|].
  destruct (N.eqb_spec c 92) as [->|_]; [discriminate H|].
  destruct (N.eqb_spec c 10) as [->|_]; [discriminate H|reflexivity].
Qed.

Lemma filter_token t :
  is_token t -> filter (fun c => negb (is_layout c)) t = t.
Proof.
  intros (w & -> & _ & Hw). apply filter_no_layout. cbn [forallb].
  apply andb_true_intro. split; [reflexivity|].
  exact (forallb_weaken _ _ _ is_ident_not_layout Hw).
Qed.

Lemma filter_ljust t :
  is_token t -> filter (fun c => negb (is_layout c)) (ljust 12 t) = t.
Proof.
  intros Ht. unfold ljust. rewrite filter_app, (filter_token t Ht).
  rewrite filter_layout_only; [apply app_nil_r|].
  induction (12 - length t) as [|n IH]; [reflexivity|exact IH].
Qed.

Lemma filter_join sep parts :
  forallb is_layout sep = true ->
  filter (fun c => negb (is_layout c)) (join sep parts) =
  concat (map (filter (fun c => negb (is_layout c))) parts).
Proof.
  intros Hsep. induction parts as [|p parts IH]; [reflexivity|].
  destruct parts as [|p' parts].
  - cbn [join map concat]. now rewrite app_nil_r.
  - change (join sep (p :: p' :: parts))
      with (p ++ sep ++ join sep (p' :: parts)).
    rewrite !filter_app, IH, (filter_layout_only sep Hsep). reflexivity.
Qed.

Lemma filter_row row :
  Forall is_token row ->
  filter (fun c => negb (is_layout c)) (join [space] (map (ljust 12) row)) =
  concat row.
Proof.
  intros Hrow. rewrite filter_join by reflexivity. rewrite map_map.
  f_equal. induction Hrow as [|t row Ht Hrow IH]; [reflexivity|].
  cbn [map]. now rewrite filter_ljust, IH.
Qed.

Lemma concat_map_concat {A} (ll : list (list (list A))) :
  concat (map (@concat A) ll) = concat (concat ll).
Proof.
  induction ll as [|l ll IH]; [reflexivity|].
  cbn [map concat]. now rewrite concat_app, IH.
Qed.

Lemma filter_grid toks :
  Forall is_token toks ->
  filter (fun c => negb (is_layout c)) (join row_sep (format_rows toks)) =
  concat toks.
Proof.
  intros Ht. rewrite filter_join by reflexivity.
  rewrite format_rows_map, map_map.
  transitivity (concat (map (@concat char)
                  (map (fun k => firstn 10 (skipn (10 * k) toks))
                       (seq 0 ((length toks + 9) / 10))))).
  - rewrite map_map. f_equal. apply map_ext. intros k.
    apply filter_row. now apply Forall_firstn_skipn.
  - rewrite concat_map_concat, concat_chunks. f_equal. apply firstn_all2.
    change (length toks <= 10 * ((length toks + 9) / 10)).
    pose proof (Nat.div_mod_eq (length toks + 9) 10).
    pose proof (Nat.mod_upper_bound (length toks + 9) 10). lia.
Qed.

Lemma filter_render_body toks :
  Forall is_token toks ->
  filter (fun c => negb (is_layout c)) (render_body toks) = concat toks.
Proof.
  intros Ht. unfold render_body. rewrite !filter_app.
  rewrite (filter_grid _ Ht).
  rewrite (filter_layout_only [bslash; nl]) by reflexivity.
  rewrite (filter_layout_only (str "        ")) by reflexivity.
  rewrite (filter_layout_only (str "    ")) by reflexivity.
  cbn [app]. apply app_nil_r.
Qed.

(** X3: of the body of a block only the tokens are kept: the block that
    [format_bindings] returns, without its spaces, backslashes and newlines,
    is [bindings=<], the tokens of the original body one after the other,
    and [>].  Anything else that stood in the body is gone. *)
Theorem only_tokens_survive (m : match_obj) :
  filter (fun c => negb (is_layout c)) (format_bindings m) =
  str "bindings=<" ++ concat (findall token_re (group1 m)) ++ [gt_sign].
Proof.
  unfold format_bindings. rewrite render_eq, !filter_app.
  rewrite (filter_render_body _ (findall_tokens (group1 m))).
  reflexivity.
Qed.

(** *** Columns *)

Lemma ljust_short t : length t <= 12 -> length (ljust 12 t) = 12.
Proof. intros H. rewrite length_ljust. lia. Qed.

Lemma row_offset j :
  forall row, Forall (fun t => length t <= 12) row -> j < length row ->
    skipn (13 * j) (join [space] (map (ljust 12) row)) =
    join [space] (map (ljust 12) (skipn j row)).
Proof.
  induction j as [|j IH]; intros row Hrow Hj; [reflexivity|].
  destruct row as [|t row]; [simpl in Hj; lia|].
  destruct row as [|t' row]; [simpl in Hj; lia|].
  inversion Hrow as [|? ? Ht Hrow']; subst.
  change (join [space] (map (ljust 12) (t :: t' :: row)))
    with (ljust 12 t ++ [space] ++ join [space] (map (ljust 12) (t' :: row))).
  replace (13 * S j) with (13 * j + 13) by lia.
  rewrite <- skipn_skipn. rewrite app_assoc.
  rewrite (skipn_app_exact (ljust 12 t ++ [space]))
    by (rewrite length_app, (ljust_short t Ht); reflexivity).
  cbn [skipn]. apply IH; [assumption|]. simpl in Hj. simpl. lia.
Qed.

Lemma row_starts_with t row :
  firstn (length t) (join [space] (map (ljust 12) (t :: row))) = t.
Proof.
  destruct row as [|t' row].
  - cbn [map join]. unfold ljust. rewrite firstn_app_le by lia.
    apply firstn_all.
  - change (join [space] (map (ljust 12) (t :: t' :: row)))
      with (ljust 12 t ++ [space] ++ join [space] (map (ljust 12) (t' :: row))).
    unfold ljust at 1. rewrite <- app_assoc. rewrite firstn_app_le by lia.
    apply firstn_all.
Qed.

Lemma length_row row :
  Forall (fun t => length t <= 12) row ->
  length (join [space] (map (ljust 12) row)) = 13 * length row - 1.
Proof.
  induction 1 as [|t row Ht Hrow IH]; [reflexivity|].
  destruct row as [|t' row].
  - cbn [map join length]. rewrite (ljust_short t Ht). reflexivity.
  - change (join [space] (map (ljust 12) (t :: t' :: row)))
      with (ljust 12 t ++ [space] ++ join [space] (map (ljust 12) (t' :: row))).
    rewrite !length_app, IH, (ljust_short t Ht). cbn [length]. lia.
Qed.

(** X4: when no token is longer than 12 characters the grid is aligned:
    token [j] of every row starts at column [13 * j] of the row, and a row
    of [c] tokens is [13 * c - 1] characters long (129 for a full row). *)
Theorem columns_aligned (bindings_list : list text) (k j : nat) :
  Forall (fun t => length t <= 12) bindings_list ->
  j < 10 -> 10 * k + j < length bindings_list ->
  let row := nth k (format_rows bindings_list) [] in
  let tok := nth (10 * k + j) bindings_list [] in
  firstn (length tok) (skipn (13 * j) row) = tok /\
  length row = 13 * Nat.min 10 (length bindings_list - 10 * k) - 1.
Proof.
  intros Hshort Hj Hk row tok. subst row tok.
  assert (Hrows : k < length (format_rows bindings_list)).
  { rewrite length_format_rows.
    pose proof (Nat.div_mod_eq (length bindings_list + 9) 10).
    pose proof (Nat.mod_upper_bound (length bindings_list + 9) 10). lia. }
  rewrite (nth_format_rows _ _ Hrows).
  set (chunk := firstn 10 (skipn (10 * k) bindings_list)).
  assert (Hchunk : Forall (fun t => length t <= 12) chunk)
    by now apply Forall_firstn_skipn.
  assert (Hlen : length chunk = Nat.min 10 (length bindings_list - 10 * k))
    by (unfold chunk; now rewrite length_firstn, length_skipn).
  assert (Hjl : j < length chunk) by lia.
  split.
  - rewrite (row_offset j chunk Hchunk Hjl).
    assert (Hnth : nth (10 * k + j) bindings_list [] = nth j chunk []).
    { unfold chunk. rewrite nth_firstn.
      destruct (j <? 10) eqn:E; [|apply Nat.ltb_ge in E; lia].
      now rewrite nth_skipn. }
    rewrite Hnth.
    assert (Hs : skipn j chunk = nth j chunk [] :: skipn (S j) chunk).
    { clear Hnth. revert Hjl. generalize chunk. clear. induction j as [|j IH];
        intros [|t l] H; simpl in H; try lia; [reflexivity|].
      cbn [skipn nth]. apply IH. lia. }
    change (@skipn (list char) j chunk) with (@skipn text j chunk).
    rewrite Hs. apply row_starts_with.
  - rewrite (length_row chunk Hchunk). f_equal. f_equal. exact Hlen.
Qed.

Lemma columns_aligned_witness :
  firstn 3 (skipn 13 (nth 0 (format_rows [str "&kp"; str "&mo"]) [])) =
  str "&mo".
Proof.
  destruct (columns_aligned [str "&kp"; str "&mo"] 0 1) as [E _].
  - repeat constructor.
  - repeat constructor.
  - repeat constructor.
  - exact E.
Defined.

End BlockShapeFacts.

(** ** The transform works block by block *)

Module LocalityFacts.
Import Regex TextFacts RegexFacts Formatter GridFacts TokenFacts BlockFacts.

Lemma closed_tail c (u : text) :
  (exists u', c :: u = u' ++ [gt_sign]) ->
  u = [] \/ exists u', u = u' ++ [gt_sign].
Proof.
  intros (u' & E). destruct u' as [|x u'].
  - left. now injection E.
  - right. injection E as _ E. now exists u'.
Qed.

(** A text that ends with [>] and starts like [x>], with no [>] in [x],
    holds all of [x>]. *)
Lemma first_gt_inside x :
  forall y u b,
    forallb not_gt x = true ->
    x ++ gt_sign :: y = u ++ b ->
    (exists u', u = u' ++ [gt_sign]) ->
    exists r, u = x ++ gt_sign :: r.
Proof.
  induction x as [|c x IH]; intros y u b Hx E Hu.
  - destruct u as [|c u].
    + destruct Hu as ([|? ?] & Hu); discriminate Hu.
    + cbn [app] in E. injection E as <- _. now exists u.
  - cbn [forallb] in Hx. apply andb_prop in Hx. destruct Hx as [Hc Hx].
    destruct u as [|c' u].
    + destruct Hu as ([|? ?] & Hu); discriminate Hu.
    + cbn [app] in E. injection E as <- E.
      destruct (closed_tail c u Hu) as [->|Hu'].
      * destruct Hu as ([|? ?] & Hu).
        -- injection Hu as ->. discriminate Hc.
        -- injection Hu as _ Hu. destruct l; discriminate Hu.
      * destruct (IH y u b Hx E Hu') as (r & ->). now exists r.
Qed.

Lemma suffix_closed (g r : text) :
  (exists u', g ++ r = u' ++ [gt_sign]) ->
  r = [] \/ exists u', r = u' ++ [gt_sign].
Proof.
  induction g as [|c g IH]; intros H.
  - right. exact H.
  - cbn [app] in H. destruct (closed_tail c (g ++ r) H) as [E|H'].
    + left. now apply app_eq_nil in E.
    + now apply IH.
Qed.

Lemma sub_closed_app n :
  forall u b,
    length u = n ->
    u = [] \/ (exists u', u = u' ++ [gt_sign]) ->
    format_keymap_bindings (u ++ b) =
    format_keymap_bindings u ++ format_keymap_bindings b.
Proof.
  induction n as [n IH] using lt_wf_ind. intros u b Hn [->|Hu];
    [reflexivity|].
  destruct (match_at pattern u) as [[m r]|] eqn:E.
  - pose proof (block_match_sound _ _ _ E) as (Hb & Hg & Hs).
    assert (E' : match_at pattern (u ++ b) = Some (m, r ++ b)).
    { rewrite Hs, Hg, <- !app_assoc. cbn [app].
      rewrite (block_match (group1 m) (r ++ b) Hb).
      destruct m as [g0 g1]. cbn [group0 group1] in *. now rewrite Hg. }
    rewrite (sub_match _ _ _ E), (sub_match _ _ _ E'), <- app_assoc.
    f_equal. apply (IH (length r)); [|reflexivity|].
    + subst n. rewrite Hs, length_app.
      pose proof (pattern_never_empty _ _ _ E).
      destruct (group0 m); [congruence|simpl; lia].
    + apply (suffix_closed (group0 m)). now rewrite <- Hs.
  - destruct u as [|c u].
    { destruct Hu as ([|? ?] & Hu); discriminate Hu. }
    assert (E' : match_at pattern ((c :: u) ++ b) = None).
    { destruct (match_at pattern ((c :: u) ++ b)) as [[m r]|] eqn:E';
        [|reflexivity].
      exfalso. apply block_match_sound in E'.
      destruct E' as ((Hne & Hb) & Hg & Hs). rewrite Hg in Hs.
      rewrite <- !app_assoc in Hs. cbn [app] in Hs.
      rewrite app_assoc in Hs. symmetry in Hs.
      assert (Hx : forallb not_gt (block_head ++ group1 m) = true)
        by (rewrite forallb_app, Hb; reflexivity).
      destruct (first_gt_inside (block_head ++ group1 m) r (c :: u) b
                  Hx Hs Hu) as (r' & Hr).
      rewrite Hr, <- app_assoc in E.
      rewrite (block_match (group1 m) r') in E; [discriminate|].
      now split. }
    cbn [app] in E'. cbn [app].
    rewrite (sub_skip _ _ E), (sub_skip _ _ E'). cbn [app]. f_equal.
    apply (IH (length u)); [subst n; simpl; lia|reflexivity|].
    now apply (closed_tail c).
Qed.

(** X5: the transform works block by block: a text cut after any [>] is
    transformed piece by piece. *)
Theorem format_after_gt (a b : text) :
  format_keymap_bindings ((a ++ [gt_sign]) ++ b) =
  format_keymap_bindings (a ++ [gt_sign]) ++ format_keymap_bindings b.
Proof.
  apply (sub_closed_app (length (a ++ [gt_sign]))); [reflexivity|].
  right. now exists a.
Qed.

End LocalityFacts.

(** ** Formatting a file twice *)

Module BatchFacts.
Import Regex TextFacts RegexFacts Formatter GridFacts TokenFacts BlockFacts.
Import FormatterFacts.

Lemma text_eqb_eq a b : text_eqb a b = true <-> a = b.
Proof.
  revert b. induction a as [|x a IH]; intros [|y b]; cbn [text_eqb];
    try (split; [discriminate|discriminate]); [tauto|].
  rewrite andb_true_iff, N.eqb_eq, IH. split.
  - now intros [-> ->].
  - intros E. now injection E.
Qed.

Lemma text_eqb_neq a b : a <> b -> text_eqb a b = false.
Proof.
  intros H. destruct (text_eqb a b) eqn:E; [|reflexivity].
  now apply text_eqb_eq in E.
Qed.

Lemma read_write_other path content w p :
  p <> path -> read_file (write_file path content w) p = read_file w p.
Proof. intros H. unfold write_file. cbn. now rewrite text_eqb_neq. Qed.

Lemma format_other e path w p :
  p <> path ->
  read_file (format_with_clang_and_grid e path w) p = read_file w p.
Proof.
  intros Hp. unfold format_with_clang_and_grid, apply_clang.
  destruct (read_file w path) as [content|msg]; [|reflexivity].
  destruct (clang_format e (format_keymap_bindings content))
    as [|msg|rc out err]; [| reflexivity |];
    (destruct (write_error e path) as [msg|]; [reflexivity|]);
    cbn [print read_file]; now rewrite read_write_other by assumption.
Qed.

Lemma format_written e path content w :
  never_replaces e -> write_error e path = None ->
  read_file w path = Ok content ->
  read_file (format_with_clang_and_grid e path w) path =
  Ok (format_keymap_bindings content).
Proof.
  intros He Hw Hr. unfold format_with_clang_and_grid, apply_clang.
  rewrite Hr, Hw.
  destruct (He (format_keymap_bindings content))
    as [->|(rc & out & err & -> & Hrc)].
  - apply read_write_file.
  - destruct (Z.eqb_spec rc 0) as [->|_]; [congruence|].
    apply read_write_file.
Qed.

Lemma sub_twice (content : text) :
  format_keymap_bindings (format_keymap_bindings content) =
  format_keymap_bindings content.
Proof.
  remember (length content) as n eqn:Hn. revert content Hn.
  induction n as [n IH] using lt_wf_ind. intros s Hn.
  destruct (match_at pattern s) as [[m rest]|] eqn:E.
  - rewrite (sub_match _ _ _ E). unfold format_bindings.
    rewrite sub_render by apply findall_tokens. f_equal.
    apply (IH (length rest)); [|reflexivity].
    pose proof (pattern_never_empty _ _ _ E) as Hne.
    apply block_match_sound in E. destruct E as (_ & _ & ->).
    subst n. rewrite length_app. destruct (group0 m); [congruence|simpl; lia].
  - destruct s as [|c s]; [reflexivity|].
    rewrite (sub_skip _ _ E).
    rewrite (sub_skip _ _ (no_match_stable _ _ E)). f_equal.
    apply (IH (length s)); [subst n; simpl; lia|reflexivity].
Qed.

(** X7: formatting a file a second time changes nothing, as long as the
    external formatter gives no text back (it is not installed, or it
    fails): the file after two runs is the file after one run. *)
Theorem format_file_twice (e : env) (file_path content : text) (w : world) :
  never_replaces e -> write_error e file_path = None ->
  read_file w file_path = Ok content ->
  let w1 := format_with_clang_and_grid e file_path w in
  let w2 := format_with_clang_and_grid e file_path w1 in
  read_file w1 file_path = Ok (format_keymap_bindings content) /\
  forall p, read_file w2 p = read_file w1 p.
Proof.
  intros He Hw Hr w1 w2. subst w1 w2.
  pose proof (format_written e file_path content w He Hw Hr) as H1.
  split; [exact H1|]. intros p.
  destruct (text_eqb p file_path) eqn:Ep.
  - apply text_eqb_eq in Ep. subst p.
    rewrite (format_written e file_path _ _ He Hw H1), H1.
    now rewrite sub_twice.
  - apply format_other. intros ->. now rewrite text_eqb_refl in Ep.
Qed.

Lemma format_file_twice_witness :
  let e := Env (fun _ => NotFound) (fun _ => None) in
  let w := World (fun _ => Ok (str "bindings = <&kp A>")) [] in
  let w1 := format_with_clang_and_grid e (str "my.keymap") w in
  read_file (format_with_clang_and_grid e (str "my.keymap") w1)
            (str "my.keymap") =
  read_file w1 (str "my.keymap").
Proof.
  intros e w w1.
  destruct (format_file_twice e (str "my.keymap") (str "bindings = <&kp A>")
              w) as [_ H].
  - intros t. now left.
  - reflexivity.
  - reflexivity.
  - apply H.
Defined.

End BatchFacts.

(** ** What the validator reports *)

Module ReportFacts.
Import Regex TextFacts RegexFacts Validator ValidatorFacts.

Lemma occurs_context needle pre content post :
  occurs needle content -> occurs needle (pre ++ content ++ post).
Proof.
  intros (a & b & ->). exists (pre ++ a), (b ++ post).
  now rewrite <- !app_assoc.
Qed.

Lemma contains_context needle pre content post :
  contains needle content = true ->
  contains needle (pre ++ content ++ post) = true.
Proof. rewrite !contains_spec. apply occurs_context. Qed.

Section Unicode.
Variables uni_alnum uni_space : char -> bool.
Variable encodable : char -> bool.

Lemma has_layer_context pre content post :
  has_layer uni_alnum uni_space content ->
  has_layer uni_alnum uni_space (pre ++ content ++ post).
Proof.
  intros (a & d & b & -> & Hd). exists (pre ++ a), d, (b ++ post).
  split; [now rewrite <- !app_assoc|exact Hd].
Qed.

(** X9: for a file that can be read, the script prints the single line
    [Keymap validation passed!] exactly when the two includes, the keymap
    node and a layer declaration are all in the text; it then runs to its
    end. *)
Theorem passes_iff (fs : text -> io_result text)
        (script keymap_file content : text) (more : list text) :
  fs keymap_file = Ok content ->
  main uni_alnum uni_space encodable fs (script :: keymap_file :: more) =
    ([str "Keymap validation passed!"], Finished) <->
  occurs (str "#include <behaviors.dtsi>") content /\
  occurs (str "#include <dt-bindings/zmk/keys.h>") content /\
  occurs (str "compatible = " ++ [dquote] ++ str "zmk,keymap" ++ [dquote])
         content /\
  has_layer uni_alnum uni_space content.
Proof.
  intros Hfs. unfold main, validate_keymap_syntax. cbn [length nth].
  rewrite Hfs, (check_content_reports uni_alnum uni_space).
  fold include_behaviors include_keys compatible_keymap.
  pose proof (contains_spec include_behaviors content) as H1.
  pose proof (contains_spec include_keys content) as H2.
  pose proof (contains_spec compatible_keymap content) as H3.
  pose proof (layer_count_present uni_alnum uni_space content) as H4.
  destruct (contains include_behaviors content),
           (contains include_keys content),
           (contains compatible_keymap content),
           (negb (length (findall (layer_re uni_alnum uni_space) content)
                  =? 0)%nat); cbn [app map];
    (split;
     [intros E;
      try (rewrite (print_header_then encodable) in E;
           destruct (print_lines encodable _) in E; discriminate E);
      tauto|]);
    intros (G1 & G2 & G3 & G4);
    apply H1 in G1; apply H2 in G2; apply H3 in G3; apply H4 in G4;
    try reflexivity; discriminate.
Qed.

Lemma incl_report (b b' : bool) (msg : text) (l l' : list text) :
  (b = true -> b' = true) -> incl l' l ->
  incl ((if b' then [] else [msg]) ++ l') ((if b then [] else [msg]) ++ l).
Proof.
  intros Hb Hl. destruct b'.
  - cbn [app]. intros x Hx. apply in_or_app. right. now apply Hl.
  - destruct b; [now discriminate Hb|].
    cbn [app]. intros x [->|Hx]; [now left|right; now apply Hl].
Qed.

(** X10: text added before or after never brings a new error: every error
    reported for the larger text is reported for the text inside it.  In
    particular a text that has the four elements keeps them wherever it is
    put, also inside a comment. *)
Theorem more_text_fewer_errors (pre content post : text) :
  incl (check_content uni_alnum uni_space (pre ++ content ++ post))
       (check_content uni_alnum uni_space content) /\
  (check_content uni_alnum uni_space content = [] ->
   check_content uni_alnum uni_space (pre ++ content ++ post) = []).
Proof.
  assert (Hincl : incl (check_content uni_alnum uni_space
                          (pre ++ content ++ post))
                       (check_content uni_alnum uni_space content)).
  { rewrite !(check_content_reports uni_alnum uni_space).
    apply incl_report; [apply contains_context|].
    apply incl_report; [apply contains_context|].
    apply incl_report; [apply contains_context|].
    rewrite <- (app_nil_r (if negb _ then _ else _)).
    rewrite <- (app_nil_r (if negb (length (findall _ content) =? 0)%nat
                           then _ else _)).
    apply incl_report; [|apply incl_refl].
    rewrite !(layer_count_present uni_alnum uni_space).
    apply has_layer_context. }
  split; [exact Hincl|].
  intros E. rewrite E in Hincl.
  destruct (check_content uni_alnum uni_space (pre ++ content ++ post))
    as [|x l]; [reflexivity|].
  destruct (Hincl x (or_introl eq_refl)).
Qed.

End Unicode.

Lemma passes_iff_witness :
  main ascii_only ascii_only ascii_only
       (fun _ => Ok (str "#include <behaviors.dtsi>" ++ [nl]
                       ++ scenario2_content))
       [str "validate_keymap.py"; str "my.keymap"] =
  ([str "Keymap validation passed!"], Finished).
Proof.
  apply (passes_iff ascii_only ascii_only ascii_only
           (fun _ => Ok (str "#include <behaviors.dtsi>" ++ [nl]
                           ++ scenario2_content))
           (str "validate_keymap.py") (str "my.keymap") _ [] eq_refl).
  repeat split.
  - apply contains_spec. vm_compute. reflexivity.
  - apply contains_spec. vm_compute. reflexivity.
  - apply contains_spec. vm_compute. reflexivity.
  - apply layer_count_present. vm_compute. reflexivity.
Defined.

Lemma more_text_fewer_errors_witness :
  check_content ascii_only ascii_only
    (str "/* " ++ (str "#include <behaviors.dtsi>" ++ [nl]
                     ++ scenario2_content) ++ str " */") = [].
Proof.
  apply (more_text_fewer_errors ascii_only ascii_only (str "/* ")
           (str "#include <behaviors.dtsi>" ++ [nl] ++ scenario2_content)
           (str " */")).
  vm_compute. reflexivity.
Defined.

End ReportFacts.

(** ** When a block has tokens *)

Module TokenPresenceFacts.
Import Regex TextFacts RegexFacts Formatter TokenFacts TokenSequenceFacts.
Import ValidatorFacts.

(** X11: the token list of a body is empty exactly when no [&] of the body
    is followed by an identifier character; so a block is written back with
    a body when, and only when, such an [&] stands in it. *)
Theorem tokens_found_iff (bindings : text) :
  findall token_re bindings <> [] <->
  exists pre c post,
    bindings = pre ++ amp :: c :: post /\ is_ident c = true.
Proof.
  rewrite (findall_found _ _ token_re_never_empty). split.
  - intros (pre & suf & m & rest & -> & Hm).
    apply token_match_sound in Hm. destruct Hm as ((w & Hg & Hne & Hw) & ->).
    rewrite Hg. destruct w as [|c w]; [congruence|].
    cbn [forallb] in Hw. apply andb_prop in Hw. destruct Hw as [Hc _].
    now exists pre, c, (w ++ rest).
  - intros (pre & c & post & -> & Hc).
    destruct (ident_run post) as (run & rest & -> & Hrun & Hrest).
    assert (Ht : is_token (amp :: c :: run)).
    { exists (c :: run). split; [reflexivity|]. split; [discriminate|].
      cbn [forallb]. now rewrite Hc, Hrun. }
    exists pre, ((amp :: c :: run) ++ rest), (Match (amp :: c :: run) []),
           rest.
    split; [reflexivity|]. now apply token_match.
Qed.

Lemma tokens_found_iff_witness : findall token_re (str "<&kp A>") <> [].
Proof.
  apply (tokens_found_iff (str "<&kp A>")).
  exists (str "<"), 107, (str "p A>"). split; reflexivity.
Defined.

End TokenPresenceFacts.
